(** * AES-CMAC of openpgpjs ([src/crypto/cmac.js]): model and verification

    The JavaScript module is embedded shallowly.  [Uint8Array]s are views
    into a store of [ArrayBuffer]s, so that the in-place updates of
    [rightXorMut] and [mul2] and the sharing between the caller's message,
    the cached subkeys and the buffers of the cipher back ends are visible.
    [async]/[await] code is sequenced in a state-and-exception monad. *)

From Stdlib Require Import ZArith Lia List String Ascii.
From stdpp Require Import base tactics option list.
Import ListNotations.
Local Open Scope Z_scope.

(** ** Bytes *)

Definition byte_ok (b : Z) : Prop := 0 ≤ b < 256.
Definition bytes_ok (l : list Z) : Prop := Forall byte_ok l.

(** Storing a number into a [Uint8Array] keeps it modulo 2^8. *)
Definition ToUint8 (v : Z) : Z := v mod 256.

(** Operand of a bitwise operator: [undefined] (a read outside the array)
    becomes 0; a stored byte is its own Int32 value. *)
Definition ToInt32 (v : option Z) : Z := default 0 v.

(** Truthiness of a number. *)
Definition truthy (v : Z) : bool := negb (v =? 0).

(** ** The store of ArrayBuffers and typed-array views *)

Abbreviation loc := nat.
Abbreviation heap := (list (list Z)).

Record Uint8Array := mkU8 { buffer : loc; byteOffset : nat; len : nat }.

Inductive error :=
  | InvalidKeyLength   (* the cipher provider rejects the key size *)
  | MisalignedInput    (* the unpadded cipher is given a partial block *)
  | RangeError.        (* TypedArray.prototype.set: source too long *)

Definition M (A : Type) : Type := heap → heap * (error + A).

Global Instance M_ret : MRet M := λ A x h, (h, inr x).
Global Instance M_bind : MBind M := λ A B k m h,
  match m h with
  | (h', inl e) => (h', inl e)
  | (h', inr x) => k x h'
  end.
Definition throw {A} (e : error) : M A := λ h, (h, inl e).

(** The elements seen through a view. *)
Definition contents (h : heap) (a : Uint8Array) : list Z :=
  take (len a) (drop (byteOffset a) (default [] (h !! buffer a))).

(** Replace the elements seen through a view. *)
Definition set_view (h : heap) (a : Uint8Array) (c : list Z) : heap :=
  alter (λ l, take (byteOffset a) l ++ c ++ drop (byteOffset a + len a) l)
        (buffer a) h.

Definition valid (h : heap) (a : Uint8Array) : Prop :=
  ∃ l, h !! buffer a = Some l ∧ (byteOffset a + len a ≤ length l)%nat.

Definition heap_ok (h : heap) : Prop := Forall bytes_ok h.

(** [a[i]] as an rvalue: [None] is [undefined]. *)
Definition ta_get (a : Uint8Array) (i : Z) : M (option Z) := λ h,
  (h, inr (if decide (0 ≤ i) then contents h a !! Z.to_nat i else None)).

(** [a[i] = v]: a write outside [0, length) is ignored. *)
Definition ta_set (a : Uint8Array) (i : Z) (v : Z) : M unit := λ h,
  (if decide (0 ≤ i < Z.of_nat (len a))
   then alter (<[(byteOffset a + Z.to_nat i)%nat := ToUint8 v]>) (buffer a) h
   else h, inr tt).

(** A typed array over a fresh buffer holding [bytes]. *)
Definition alloc (bytes : list Z) : M Uint8Array := λ h,
  (h ++ [bytes], inr (mkU8 (length h) 0 (length bytes))).

(** [new Uint8Array(n)] *)
Definition new_Uint8Array (n : nat) : M Uint8Array := alloc (replicate n 0).

Definition ta_contents (a : Uint8Array) : M (list Z) := λ h,
  (h, inr (contents h a)).

(** [a.slice()] *)
Definition slice (a : Uint8Array) : M Uint8Array :=
  c ← ta_contents a; alloc c.

(** [target.set(source)]: the source elements overwrite the first
    elements of the target; a source longer than the target is refused. *)
Definition ta_overwrite (target : Uint8Array) (c : list Z) : M unit := λ h,
  (set_view h target (c ++ drop (length c) (contents h target)), inr tt).

Definition ta_set_from (target source : Uint8Array) : M unit :=
  c ← ta_contents source;
  if decide (length c ≤ len target)%nat
  then ta_overwrite target c
  else throw RangeError.

(** [a.subarray(begin, end)]: a new view on the same buffer. *)
Definition relative_index (n : nat) (i : Z) : nat :=
  if decide (i < 0) then Z.to_nat (Z.max (Z.of_nat n + i) 0)
  else Z.to_nat (Z.min i (Z.of_nat n)).

Definition subarray (a : Uint8Array) (begin : Z) (end_ : option Z) : Uint8Array :=
  let b := relative_index (len a) begin in
  let e := from_option (relative_index (len a)) (len a) end_ in
  mkU8 (buffer a) (byteOffset a + b) (e - b).

(** [for (let i = lo; i < lo + n; i++) body] *)
Fixpoint for_ (lo n : nat) (body : nat → M unit) : M unit :=
  match n with
  | O => mret tt
  | S n' => body lo ;; for_ (S lo) n' body
  end.

(** ** cmac.js *)

Definition blockLength : nat := 16.

Definition rightXorMut (data padding : Uint8Array) : M Uint8Array :=
  let offset := Z.of_nat (len data) - Z.of_nat blockLength in
  for_ 0 blockLength (λ i,
    d ← ta_get data (Z.of_nat i + offset);
    p ← ta_get padding (Z.of_nat i);
    ta_set data (Z.of_nat i + offset) (Z.lxor (ToInt32 d) (ToInt32 p)));;
  mret data.

Definition mul2 (data : Uint8Array) : M Uint8Array :=
  d0 ← ta_get data 0;
  let t := Z.land (ToInt32 d0) 0x80 in
  for_ 0 15 (λ i,
    di ← ta_get data (Z.of_nat i);
    dn ← ta_get data (Z.of_nat (i + 1));
    ta_set data (Z.of_nat i)
      (Z.lxor (Z.shiftl (ToInt32 di) 1)
              (if truthy (Z.land (ToInt32 dn) 0x80) then 1 else 0)));;
  d15 ← ta_get data 15;
  ta_set data 15 (Z.lxor (Z.shiftl (ToInt32 d15) 1) (if truthy t then 0x87 else 0));;
  mret data.

Definition pad (data padding padding2 : Uint8Array) : M Uint8Array :=
  if decide (len data `mod` blockLength = 0)%nat
  then rightXorMut data padding
  else
    padded ← new_Uint8Array (len data + (blockLength - len data `mod` blockLength));
    ta_set_from padded data;;
    ta_set padded (Z.of_nat (len data)) 0x80;;
    rightXorMut padded padding2.

(** ** The cipher providers

    The block cipher and the three libraries that run it in CBC mode
    (WebCrypto, Node's [crypto], asmcrypto.js) are outside the repository.
    The cipher enters as an interface: one block under a key, sixteen
    bytes out, bytes for bytes. Each library is modelled by its contract:
    which keys it refuses and when, whether it pads, and that its result
    is a fresh array. *)

Class BlockCipher := {
  E : list Z → list Z → list Z;
  E_length : ∀ k b, length (E k b) = blockLength;
  E_bytes : ∀ k b, bytes_ok k → bytes_ok b → bytes_ok (E k b)
}.

Definition xor_block (a b : list Z) : list Z := zip_with Z.lxor a b.

(** CBC chaining over the first [n] sixteen-byte blocks of [pt]. *)
Fixpoint cbc_chain `{BlockCipher} (n : nat) (k prev pt : list Z) : list Z :=
  match n with
  | O => []
  | S n' =>
      let c := E k (xor_block (take blockLength pt) prev) in
      c ++ cbc_chain n' k c (drop blockLength pt)
  end.

(** PKCS#7 padding, as WebCrypto's AES-CBC always applies. *)
Definition pkcs7 (pt : list Z) : list Z :=
  let r := (blockLength - length pt `mod` blockLength)%nat in
  pt ++ replicate r (Z.of_nat r).

(** AES key sizes in bytes. *)
Definition key_size_ok (n : nat) : bool :=
  ((n =? 16) || (n =? 24) || (n =? 32))%nat.

(** What [cmac.js] takes from its surroundings. [src/util.js] is not
    among the sources at hand: whether its [getWebCryptoAll()] and
    [getNodeCrypto()] give a provider is a parameter. [zeroBlock] is the
    module constant. *)
Record Env := mkEnv {
  webCrypto : bool;
  nodeCrypto : bool;
  zeroBlock : Uint8Array
}.

(** [const zeroBlock = new Uint8Array(blockLength)] *)
Definition module_init (web node : bool) : M Env :=
  z ← new_Uint8Array blockLength; mret (mkEnv web node z).

(** The three closures [CBC] can return. WebCrypto holds an imported key
    and Node a [Buffer] copy of it; the asm.js fallback keeps the caller's
    array. *)
Inductive cbc_fn :=
  | WebCryptoCBC (key : list Z)
  | NodeCBC (key : list Z)
  | AsmCBC (key : Uint8Array).

Record mac_fn := mkMac {
  mac_cbc : cbc_fn;
  padding : Uint8Array;
  padding2 : Uint8Array
}.

Section Cmac.
Context `{BlockCipher} (env : Env).

Definition CBC (key : Uint8Array) : M cbc_fn :=
  if webCrypto env && negb (len key =? 24)%nat then
    (* importKey('raw', key, {name: 'AES-CBC'}) *)
    k ← ta_contents key;
    if key_size_ok (len key) then mret (WebCryptoCBC k)
    else throw InvalidKeyLength
  else if nodeCrypto env then
    k ← ta_contents key; mret (NodeCBC k)
  else mret (AsmCBC key).

Definition call_cbc (f : cbc_fn) (pt : Uint8Array) : M Uint8Array :=
  match f with
  | WebCryptoCBC k =>
      (* encrypt pads; the view drops the block of padding *)
      p ← ta_contents pt;
      iv ← ta_contents (zeroBlock env);
      ct ← alloc (cbc_chain (length p / blockLength + 1) k iv (pkcs7 p));
      mret (subarray ct 0 (Some (Z.of_nat (len ct) - Z.of_nat blockLength)))
  | NodeCBC k =>
      (* createCipheriv('aes-<bits>-cbc'), then update without final *)
      p ← ta_contents pt;
      if key_size_ok (length k) then
        iv ← ta_contents (zeroBlock env);
        alloc (cbc_chain (length p / blockLength) k iv p)
      else throw InvalidKeyLength
  | AsmCBC key =>
      (* AES_CBC.encrypt(pt, key, false, zeroBlock) *)
      p ← ta_contents pt;
      k ← ta_contents key;
      if key_size_ok (len key) then
        if decide (len pt `mod` blockLength = 0)%nat then
          iv ← ta_contents (zeroBlock env);
          alloc (cbc_chain (length p / blockLength) k iv p)
        else throw MisalignedInput
      else throw InvalidKeyLength
  end.

Definition CMAC (key : Uint8Array) : M mac_fn :=
  cbc ← CBC key;
  l ← call_cbc cbc (zeroBlock env);
  padding ← mul2 l;
  s ← slice padding;
  padding2 ← mul2 s;
  mret (mkMac cbc padding padding2).

(** The function [CMAC] returns (lines 89-92). *)
Definition MacFunction (f : mac_fn) (data : Uint8Array) : M Uint8Array :=
  padded ← pad data (padding f) (padding2 f);
  ct ← call_cbc (mac_cbc f) padded;
  mret (subarray ct (- Z.of_nat blockLength) None).
End Cmac.

(** ** Reference AES (FIPS 197), the cipher behind every provider *)

Module AES.
Definition xtime (b : Z) : Z :=
  let s := Z.land (Z.shiftl b 1) 255 in
  if Z.testbit b 7 then Z.lxor s 0x1b else s.

Fixpoint gmul_go (n : nat) (a b acc : Z) : Z :=
  match n with
  | O => acc
  | S n' => gmul_go n' (xtime a) (Z.shiftr b 1)
              (if Z.testbit b 0 then Z.lxor acc a else acc)
  end.
Definition gmul (a b : Z) : Z := gmul_go 8 a b 0.

(** The inverse in GF(2^8) is the 254th power. *)
Definition ginv (a : Z) : Z :=
  let a2 := gmul a a in let a4 := gmul a2 a2 in let a8 := gmul a4 a4 in
  let a16 := gmul a8 a8 in let a32 := gmul a16 a16 in
  let a64 := gmul a32 a32 in let a128 := gmul a64 a64 in
  gmul a2 (gmul a4 (gmul a8 (gmul a16 (gmul a32 (gmul a64 a128))))).

Definition rotl8 (x : Z) (n : Z) : Z :=
  Z.land (Z.lor (Z.shiftl x n) (Z.shiftr x (8 - n))) 255.

Definition sbox_calc (a : Z) : Z :=
  let x := ginv a in
  Z.lxor x (Z.lxor (rotl8 x 1) (Z.lxor (rotl8 x 2)
    (Z.lxor (rotl8 x 3) (Z.lxor (rotl8 x 4) 0x63)))).

Definition sbox_table : list Z :=
  Eval vm_compute in map sbox_calc (seqZ 0 256).

Definition sbox (b : Z) : Z := default 0 (sbox_table !! Z.to_nat b).

Definition SubBytes (st : list Z) : list Z := sbox <$> st.

(** The state is kept in input order: row r of column c is byte r + 4c. *)
Definition ShiftRows (st : list Z) : list Z :=
  (λ i, default 0 (st !! i)) <$>
    [0; 5; 10; 15; 4; 9; 14; 3; 8; 13; 2; 7; 12; 1; 6; 11]%nat.

Fixpoint MixColumns (st : list Z) : list Z :=
  match st with
  | a0 :: a1 :: a2 :: a3 :: rest =>
      Z.lxor (gmul 2 a0) (Z.lxor (gmul 3 a1) (Z.lxor a2 a3)) ::
      Z.lxor a0 (Z.lxor (gmul 2 a1) (Z.lxor (gmul 3 a2) a3)) ::
      Z.lxor a0 (Z.lxor a1 (Z.lxor (gmul 2 a2) (gmul 3 a3))) ::
      Z.lxor (gmul 3 a0) (Z.lxor a1 (Z.lxor a2 (gmul 2 a3))) ::
      MixColumns rest
  | _ => []
  end.

Definition AddRoundKey (st rk : list Z) : list Z := zip_with Z.lxor st rk.

Definition word_at (w : list Z) (i : nat) : list Z :=
  (λ j, default 0 (w !! (4 * i + j)%nat)) <$> [0; 1; 2; 3]%nat.

Definition RotWord (t : list Z) : list Z := drop 1 t ++ take 1 t.
Definition SubWord (t : list Z) : list Z := sbox <$> t.

Fixpoint Rcon (j : nat) : Z :=
  match j with
  | O | 1%nat => 1
  | S j' => xtime (Rcon j')
  end.

(** One step of the key schedule: word [i] from words [i-1] and [i-Nk]. *)
Definition expand_step (Nk : nat) (w : list Z) (i : nat) : list Z :=
  let prev := word_at w (i - 1) in
  let temp :=
    if (i `mod` Nk =? 0)%nat
    then zip_with Z.lxor (SubWord (RotWord prev)) [Rcon (i / Nk); 0; 0; 0]
    else if ((6 <? Nk) && (i `mod` Nk =? 4))%nat then SubWord prev
    else prev in
  w ++ zip_with Z.lxor (word_at w (i - Nk)) temp.

Definition KeyExpansion (key : list Z) : list Z :=
  let Nk := (length key / 4)%nat in
  let Nr := (Nk + 6)%nat in
  foldl (expand_step Nk) key (seq Nk (4 * (Nr + 1) - Nk)).

Definition round_key (w : list Z) (r : nat) : list Z :=
  (λ j, default 0 (w !! (16 * r + j)%nat)) <$> seq 0 16.

Definition round (w : list Z) (st : list Z) (r : nat) : list Z :=
  AddRoundKey (MixColumns (ShiftRows (SubBytes st))) (round_key w r).

Definition Cipher (key block : list Z) : list Z :=
  let Nr := (length key / 4 + 6)%nat in
  let w := KeyExpansion key in
  let st := AddRoundKey block (round_key w 0) in
  let st := foldl (round w) st (seq 1 (Nr - 1)) in
  AddRoundKey (ShiftRows (SubBytes st)) (round_key w Nr).
End AES.

(** Bytes written as hexadecimal text. *)
Definition hex_digit (c : ascii) : Z :=
  let n := Z.of_nat (nat_of_ascii c) in
  if (48 <=? n) && (n <=? 57) then n - 48
  else if (97 <=? n) && (n <=? 102) then n - 87
  else if (65 <=? n) && (n <=? 70) then n - 55
  else 0.

Fixpoint hex (s : string) : list Z :=
  match s with
  | String a (String b rest) => (16 * hex_digit a + hex_digit b) :: hex rest
  | _ => []
  end.

(** ** What the loops do to the elements of a view

    [mul2] and [rightXorMut] only touch the elements seen through their
    first argument; these are the same loops, run on the list of those
    elements. *)

Definition mul2_step (c : list Z) (i : nat) : list Z :=
  <[i := ToUint8 (Z.lxor (Z.shiftl (ToInt32 (c !! i)) 1)
                   (if truthy (Z.land (ToInt32 (c !! (i + 1)%nat)) 0x80)
                    then 1 else 0))]> c.

Definition mul2_bytes (c : list Z) : list Z :=
  let t := Z.land (ToInt32 (c !! 0%nat)) 0x80 in
  let c' := foldl mul2_step c (seq 0 15) in
  <[15%nat := ToUint8 (Z.lxor (Z.shiftl (ToInt32 (c' !! 15%nat)) 1)
                        (if truthy t then 0x87 else 0))]> c'.

Definition xor_at (offset : Z) (p c : list Z) (i : nat) : list Z :=
  let j := Z.of_nat i + offset in
  if decide (0 ≤ j)
  then <[Z.to_nat j := ToUint8 (Z.lxor (ToInt32 (c !! Z.to_nat j))
                                       (ToInt32 (p !! i)))]> c
  else c.

Definition rightXor_bytes (c p : list Z) : list Z :=
  foldl (xor_at (Z.of_nat (length c) - Z.of_nat blockLength) p) c
        (seq 0 blockLength).

(** ** Doubling in GF(2^128), as the specification words it

    The block is a 128-bit big-endian integer; it is shifted left by one
    bit, the bit leaving at the top is dropped, and 0x87 is XORed into the
    low byte when that bit was 1. *)

Definition be_value (b : list Z) : Z := foldl (λ acc x, 256 * acc + x) 0 b.

Fixpoint be_bytes (n : nat) (v : Z) : list Z :=
  match n with
  | O => []
  | S n' => be_bytes n' (v / 256) ++ [v mod 256]
  end.

Definition double (b : list Z) : list Z :=
  let v := be_value b in
  be_bytes blockLength
    (Z.lxor (Z.shiftl v 1 mod 2 ^ 128) (if Z.testbit v 127 then 0x87 else 0)).

(** The message extended by 0x80 and zeros to the next multiple of the
    block length (section 4.3 of the specification, before the XOR). *)
Definition extend (m : list Z) : list Z :=
  m ++ 0x80 :: replicate (blockLength - length m `mod` blockLength - 1) 0.

(** ** The objects of the specification *)

Definition zero16 : list Z := replicate blockLength 0.

Definition last_block (c : list Z) : list Z := drop (length c - blockLength) c.

(** [encryptCbcZeroIv] of section 6, on a block-aligned plaintext. *)
Definition cbc_encrypt `{BlockCipher} (k pt : list Z) : list Z :=
  cbc_chain (length pt / blockLength) k zero16 pt.

(** The subkeys of section 4.2. *)
Definition subkey1 `{BlockCipher} (k : list Z) : list Z := double (E k zero16).
Definition subkey2 `{BlockCipher} (k : list Z) : list Z := double (subkey1 k).

(** What [pad] leaves in the buffer it returns. *)
Definition padded_bytes (m k1 k2 : list Z) : list Z :=
  if decide (length m `mod` blockLength = 0)%nat
  then rightXor_bytes m k1
  else rightXor_bytes (extend m) k2.

(** The key a [cbc] closure encrypts under, and its length in bytes. *)
Definition cbc_key (h : heap) (f : cbc_fn) : list Z :=
  match f with
  | WebCryptoCBC k | NodeCBC k => k
  | AsmCBC key => contents h key
  end.

Definition cbc_key_len (f : cbc_fn) : nat :=
  match f with
  | WebCryptoCBC k | NodeCBC k => length k
  | AsmCBC key => len key
  end.

(** The buffers behind a prepared MAC: the two subkeys, [zeroBlock], and
    for the asm.js fallback the key array. *)
Definition private (env : Env) (f : mac_fn) : list loc :=
  buffer (padding f) :: buffer (padding2 f) :: buffer (zeroBlock env) ::
  match mac_cbc f with AsmCBC key => [buffer key] | _ => [] end.

(** The state in which the function returned by [CMAC] runs. *)
Record prepared `{BlockCipher} (env : Env) (f : mac_fn) (k : list Z)
    (h : heap) : Prop := {
  prep_heap : heap_ok h;
  prep_zero_valid : valid h (zeroBlock env);
  prep_zero : contents h (zeroBlock env) = zero16;
  prep_key : cbc_key h (mac_cbc f) = k;
  prep_key_bytes : bytes_ok k;
  prep_key_valid : match mac_cbc f with AsmCBC key => valid h key | _ => True end;
  prep_key_size : key_size_ok (cbc_key_len (mac_cbc f)) = true;
  prep_k1_valid : valid h (padding f);
  prep_k1 : contents h (padding f) = subkey1 k;
  prep_k2_valid : valid h (padding2 f);
  prep_k2 : contents h (padding2 f) = subkey2 k
}.

(** A message the caller may pass: a view into the store on a buffer of
    the caller's own. *)
Definition message_ok (env : Env) (f : mac_fn) (h : heap) (data : Uint8Array) : Prop :=
  valid h data ∧ buffer data ∉ private env f.

(** ** Which way the conditionals of [mul2] go

    The same function once more, now recording the outcome of every
    conditional expression it evaluates: what an observer of the control
    flow learns. The loop test depends on the counter only and is left
    out. *)

Module Leak.
Definition T (A : Type) : Type :=
  heap * list bool → (heap * list bool) * (error + A).

Global Instance T_ret : MRet T := λ A x s, (s, inr x).
Global Instance T_bind : MBind T := λ A B k m s,
  match m s with
  | (s', inl e) => (s', inl e)
  | (s', inr x) => k x s'
  end.

Definition lift {A} (m : M A) : T A := λ s,
  let (h', r) := m (fst s) in ((h', snd s), r).

(** [c ? a : b] *)
Definition branch (c : bool) : T bool := λ s,
  ((fst s, snd s ++ [c]), inr c).

Fixpoint for_ (lo n : nat) (body : nat → T unit) : T unit :=
  match n with
  | O => mret tt
  | S n' => body lo ;; for_ (S lo) n' body
  end.

Definition mul2 (data : Uint8Array) : T Uint8Array :=
  d0 ← lift (ta_get data 0);
  let t := Z.land (ToInt32 d0) 0x80 in
  for_ 0 15 (λ i,
    di ← lift (ta_get data (Z.of_nat i));
    dn ← lift (ta_get data (Z.of_nat (i + 1)));
    c ← branch (truthy (Z.land (ToInt32 dn) 0x80));
    lift (ta_set data (Z.of_nat i)
            (Z.lxor (Z.shiftl (ToInt32 di) 1) (if c : bool then 1 else 0))));;
  d15 ← lift (ta_get data 15);
  c ← branch (truthy t);
  lift (ta_set data 15
          (Z.lxor (Z.shiftl (ToInt32 d15) 1)
                  (if c : bool then 0x87 else 0)));;
  mret data.

(** Forgetting the record. *)
Definition erase {A} (x : (heap * list bool) * (error + A))
  : heap * (error + A) := (fst (fst x), snd x).
End Leak.

(** ** Known answers (RFC 4493) *)

(** [prepare] then one call, and the bytes of the returned tag. *)
Definition prepare_and_mac `{BlockCipher} (env : Env)
    (key data : Uint8Array) : M (list Z) :=
  f ← CMAC env key; tag ← MacFunction env f data; ta_contents tag.

(** A store holding [zeroBlock], a key and a message, each in a buffer of
    its own. *)
Definition store3 (key msg : list Z) : heap := [zero16; key; msg].
Definition env3 (web node : bool) : Env := mkEnv web node (mkU8 0 0 16).
Definition key3 (key : list Z) : Uint8Array := mkU8 1 0 (length key).
Definition msg3 (msg : list Z) : Uint8Array := mkU8 2 0 (length msg).

Definition rfc_key : list Z := hex "2b7e151628aed2a6abf7158809cf4f3c".
Definition rfc_msg16 : list Z := hex "6bc1bee22e409f96e93d7e117393172a".
Definition rfc_msg40 : list Z :=
  hex "6bc1bee22e409f96e93d7e117393172aae2d8a571e03ac9c9eb76fac45af8e5130c81c46a35ce411".

Definition rfc_k1 : list Z := hex "fbeed618357133667c85e08f7236a8de".
Definition rfc_k2 : list Z := hex "f7ddac306ae266ccf90bc11ee46d513b".

(** The store after [CMAC] has run on [store3 rfc_key msg] with the
    asm.js fallback, and the closure it has returned. *)
Definition rfc_store (msg : list Z) : heap := store3 rfc_key msg ++ [rfc_k1; rfc_k2].
Definition rfc_env : Env := env3 false false.
Definition rfc_mac : mac_fn :=
  mkMac (AsmCBC (key3 rfc_key)) (mkU8 3 0 16) (mkU8 4 0 16).

(** * Verification *)

(** ** Views and the store *)

Section store.
Implicit Types (h : heap) (a b : Uint8Array) (c : list Z) (l : list Z).

Lemma view_split l o n :
  l = take o l ++ take n (drop o l) ++ drop (o + n) l.
Proof.
  rewrite <- drop_drop, take_drop. by rewrite take_drop.
Qed.

Lemma view_replace_length l o n c :
  (o + n ≤ length l)%nat → length c = n →
  length (take o l ++ c ++ drop (o + n) l) = length l.
Proof.
  intros Hle Hc. rewrite !length_app, length_take, length_drop. lia.
Qed.

Lemma contents_length h a : valid h a → length (contents h a) = len a.
Proof.
  intros (l & Hl & Hle). unfold contents. rewrite Hl. simpl.
  rewrite length_take, length_drop. lia.
Qed.

Lemma set_view_id h a : valid h a → set_view h a (contents h a) = h.
Proof.
  intros (l & Hl & Hle). unfold set_view, contents. rewrite Hl. simpl.
  apply list_eq. intros i. destruct (decide (i = buffer a)) as [->|Hne].
  - rewrite list_lookup_alter_eq, Hl. simpl. by rewrite <- view_split.
  - by rewrite list_lookup_alter_ne.
Qed.

Lemma contents_set_view h a c :
  valid h a → length c = len a → contents (set_view h a c) a = c.
Proof.
  intros (l & Hl & Hle) Hc. unfold set_view, contents.
  rewrite list_lookup_alter_eq, Hl. simpl.
  rewrite drop_app_length' by (rewrite length_take; lia).
  by rewrite take_app_length'.
Qed.

Lemma contents_set_view_ne h a b c :
  buffer a ≠ buffer b → contents (set_view h a c) b = contents h b.
Proof.
  intros Hne. unfold set_view, contents. by rewrite list_lookup_alter_ne.
Qed.

Lemma valid_set_view h a b c :
  length c = len a → valid h a → valid h b → valid (set_view h a c) b.
Proof.
  intros Hc (l & Hl & Hle) (l' & Hl' & Hle'). unfold valid, set_view.
  destruct (decide (buffer a = buffer b)) as [Heq|Hne].
  - rewrite <- Heq, list_lookup_alter_eq, Hl. simpl.
    eexists; split; [done|]. rewrite view_replace_length by done.
    rewrite Heq in Hl. congruence.
  - rewrite list_lookup_alter_ne by done. eauto.
Qed.

Lemma set_view_twice h a c c' :
  valid h a → length c = len a →
  set_view (set_view h a c) a c' = set_view h a c'.
Proof.
  intros (l & Hl & Hle) Hc. unfold set_view.
  rewrite list_alter_alter_eq. apply list_alter_ext; [|done].
  intros x Hx. simpl. rewrite Hl in Hx. injection Hx as <-.
  rewrite take_app_length' by (rewrite length_take; lia).
  do 2 f_equal.
  rewrite app_assoc, drop_app_length'; [done|].
  rewrite length_app, length_take. lia.
Qed.

Lemma ta_get_view h a c (i : nat) :
  valid h a → length c = len a →
  ta_get a (Z.of_nat i) (set_view h a c) = (set_view h a c, inr (c !! i)).
Proof.
  intros Hv Hc. unfold ta_get. rewrite contents_set_view by done.
  rewrite decide_True by lia. by rewrite Nat2Z.id.
Qed.

Lemma ta_get_view_ne h a b c (i : nat) :
  buffer a ≠ buffer b →
  ta_get b (Z.of_nat i) (set_view h a c)
  = (set_view h a c, inr (contents h b !! i)).
Proof.
  intros Hne. unfold ta_get. rewrite contents_set_view_ne by done.
  rewrite decide_True by lia. by rewrite Nat2Z.id.
Qed.

Lemma ta_set_view h a c (i : nat) v :
  valid h a → length c = len a → (i < len a)%nat →
  ta_set a (Z.of_nat i) v (set_view h a c)
  = (set_view h a (<[i := ToUint8 v]> c), inr tt).
Proof.
  intros (l & Hl & Hle) Hc Hi. unfold ta_set.
  rewrite decide_True by lia. rewrite Nat2Z.id. f_equal.
  unfold set_view. rewrite list_alter_alter_eq.
  apply list_alter_ext; [|done]. intros x Hx. simpl.
  rewrite Hl in Hx. injection Hx as <-.
  rewrite insert_app_r_alt by (rewrite length_take; lia).
  rewrite length_take, Nat.min_l by lia.
  replace (byteOffset a + i - byteOffset a)%nat with i by lia.
  by rewrite insert_app_l by lia.
Qed.

Lemma ta_set_outside h a (i : Z) v :
  ¬ (0 ≤ i < Z.of_nat (len a)) → ta_set a i v h = (h, inr tt).
Proof. intros Hi. unfold ta_set. by rewrite decide_False. Qed.

Lemma ta_get_negative h a (i : Z) :
  i < 0 → ta_get a i h = (h, inr None).
Proof. intros Hi. unfold ta_get. rewrite decide_False by lia. done. Qed.
End store.

(** ** Loops over one view *)

Lemma ta_set_view_any (h : heap) a c (i : nat) v :
  valid h a → length c = len a →
  ta_set a (Z.of_nat i) v (set_view h a c)
  = (set_view h a (<[i := ToUint8 v]> c), inr tt).
Proof.
  intros Hv Hc. destruct (decide (i < len a)%nat) as [Hi|Hi].
  - by apply ta_set_view.
  - rewrite ta_set_outside by lia. by rewrite list_insert_ge by lia.
Qed.

Lemma for_view (h : heap) a (f : list Z → nat → list Z) body :
  (∀ c i, length c = len a → length (f c i) = len a) →
  (∀ c i, length c = len a →
     body i (set_view h a c) = (set_view h a (f c i), inr tt)) →
  ∀ n lo c, length c = len a →
    for_ lo n body (set_view h a c)
    = (set_view h a (foldl f c (seq lo n)), inr tt).
Proof.
  intros Hlen Hbody. induction n as [|n IH]; intros lo c Hc; [done|].
  simpl. unfold mbind, M_bind. rewrite Hbody by done. apply IH. by apply Hlen.
Qed.

Lemma mul2_step_length c i : length (mul2_step c i) = length c.
Proof. unfold mul2_step. by rewrite length_insert. Qed.

Lemma mul2_steps_length c js : length (foldl mul2_step c js) = length c.
Proof.
  revert c. induction js as [|i js IH]; intros c; [done|].
  simpl. by rewrite IH, mul2_step_length.
Qed.

Lemma mul2_bytes_length c : length (mul2_bytes c) = length c.
Proof. unfold mul2_bytes. by rewrite length_insert, mul2_steps_length. Qed.

(** [mul2] rewrites the elements of its argument in place and returns it. *)
Lemma mul2_run (h : heap) a :
  valid h a →
  mul2 a h = (set_view h a (mul2_bytes (contents h a)), inr a).
Proof.
  intros Hv. pose proof (contents_length h a Hv) as Hc.
  rewrite <- (set_view_id h a Hv) at 1.
  unfold mul2, mbind, M_bind.
  rewrite (ta_get_view h a _ 0) by done.
  rewrite (for_view h a mul2_step) with (c := contents h a); try done.
  - rewrite (ta_get_view h a _ 15) by (by rewrite ?mul2_steps_length).
    rewrite (ta_set_view_any h a _ 15) by (by rewrite ?mul2_steps_length).
    unfold mul2_bytes. reflexivity.
  - intros c i Hl. by rewrite mul2_step_length.
  - intros c i Hl. rewrite ta_get_view, ta_get_view by done.
    by rewrite ta_set_view_any.
Qed.

(** ** Byte arithmetic *)

Lemma byte_cases (P : Z → bool) :
  forallb P (seqZ 0 256) = true → ∀ x, byte_ok x → P x = true.
Proof.
  intros HP x Hx. rewrite forallb_forall in HP. apply HP.
  apply list_elem_of_In, elem_of_seqZ. unfold byte_ok in Hx. lia.
Qed.

Lemma byte_cases2 (P : Z → Z → bool) :
  forallb (λ x, forallb (P x) (seqZ 0 256)) (seqZ 0 256) = true →
  ∀ x y, byte_ok x → byte_ok y → P x y = true.
Proof.
  intros HP x y Hx Hy.
  apply (byte_cases (P x)); [|done].
  by apply (byte_cases (λ x, forallb (P x) (seqZ 0 256))).
Qed.

Lemma lxor_byte x y : byte_ok x → byte_ok y → byte_ok (Z.lxor x y).
Proof.
  intros Hx Hy.
  assert ((0 <=? Z.lxor x y) && (Z.lxor x y <? 256) = true) as H.
  { apply (byte_cases2 (λ x y, (0 <=? Z.lxor x y) && (Z.lxor x y <? 256)));
      [by vm_compute|done|done]. }
  unfold byte_ok. lia.
Qed.

Lemma ToUint8_byte x : byte_ok x → ToUint8 x = x.
Proof. unfold byte_ok, ToUint8. intros Hx. by apply Z.mod_small. Qed.

Lemma ToUint8_ok x : byte_ok (ToUint8 x).
Proof. unfold byte_ok, ToUint8. apply Z.mod_pos_bound. lia. Qed.

(** A byte shifted left by one takes the top bit of its successor. *)
Lemma mul2_byte x y :
  byte_ok x → byte_ok y →
  ToUint8 (Z.lxor (Z.shiftl x 1) (if truthy (Z.land y 0x80) then 1 else 0))
  = 2 * (x mod 128) + y / 128.
Proof.
  intros Hx Hy. apply Z.eqb_eq.
  apply (byte_cases2
    (λ x y, ToUint8 (Z.lxor (Z.shiftl x 1)
                       (if truthy (Z.land y 0x80) then 1 else 0))
            =? 2 * (x mod 128) + y / 128)); [by vm_compute|done|done].
Qed.

Lemma mul2_byte_last x t :
  byte_ok x → byte_ok t →
  ToUint8 (Z.lxor (Z.shiftl x 1) (if truthy (Z.land t 0x80) then 0x87 else 0))
  = Z.lxor (2 * (x mod 128)) (if Z.testbit t 7 then 0x87 else 0).
Proof.
  intros Hx Ht. apply Z.eqb_eq.
  apply (byte_cases2
    (λ x t, ToUint8 (Z.lxor (Z.shiftl x 1)
                       (if truthy (Z.land t 0x80) then 0x87 else 0))
            =? Z.lxor (2 * (x mod 128)) (if Z.testbit t 7 then 0x87 else 0)));
    [by vm_compute|done|done].
Qed.

Lemma lxor_low hi lo c :
  0 ≤ lo < 256 → 0 ≤ c < 256 →
  Z.lxor (256 * hi + lo) c = 256 * hi + Z.lxor lo c.
Proof.
  intros Hlo Hc.
  assert ((256 * hi + lo) / 2 ^ 8 = hi) as Hd1
    by (symmetry; apply (Z.div_unique _ _ _ lo); lia).
  assert ((256 * hi + lo) mod 2 ^ 8 = lo) as Hm1
    by (symmetry; apply (Z.mod_unique _ _ hi); lia).
  assert (Z.lxor (256 * hi + lo) c / 2 ^ 8 = hi) as Hd.
  { rewrite <- Z.shiftr_div_pow2, Z.shiftr_lxor by lia.
    rewrite !Z.shiftr_div_pow2, Hd1 by lia.
    rewrite (Z.div_small c) by lia. apply Z.lxor_0_r. }
  assert (Z.lxor (256 * hi + lo) c mod 2 ^ 8 = Z.lxor lo c) as Hm.
  { apply Z.bits_inj'. intros n Hn. rewrite Z.lxor_spec.
    destruct (decide (n < 8)) as [Hlt|Hge].
    - rewrite Z.mod_pow2_bits_low, Z.lxor_spec by lia.
      rewrite <- (Z.mod_pow2_bits_low (256 * hi + lo) 8 n) by lia.
      by rewrite Hm1.
    - rewrite Z.mod_pow2_bits_high by lia.
      rewrite <- (Z.mod_small lo (2 ^ 8)), <- (Z.mod_small c (2 ^ 8)) by lia.
      by rewrite !Z.mod_pow2_bits_high by lia. }
  rewrite (Z.div_mod (Z.lxor (256 * hi + lo) c) (2 ^ 8)) by lia.
  rewrite Hd, Hm. done.
Qed.

Lemma testbit_div a n : 0 ≤ n → Z.testbit a n = Z.odd (a / 2 ^ n).
Proof.
  intros Hn. rewrite <- Z.shiftr_div_pow2, <- Z.bit0_odd by done.
  rewrite Z.shiftr_spec by lia. done.
Qed.

Lemma be_value_snoc l x : be_value (l ++ [x]) = 256 * be_value l + x.
Proof. unfold be_value. by rewrite foldl_app. Qed.

Lemma be_bytes_be_value l :
  bytes_ok l → be_bytes (length l) (be_value l) = l.
Proof.
  induction l as [|x l IH] using rev_ind; [done|].
  intros [Hl Hx]%Forall_app. rewrite Forall_singleton in Hx.
  unfold byte_ok in Hx.
  rewrite length_app, Nat.add_1_r, be_value_snoc. simpl.
  replace ((256 * be_value l + x) / 256) with (be_value l)
    by (apply (Z.div_unique _ _ _ x); lia).
  replace ((256 * be_value l + x) mod 256) with x
    by (apply (Z.mod_unique _ _ (be_value l)); lia).
  by rewrite IH.
Qed.

Ltac list16 b Hlen :=
  do 16 (destruct b as [|? b]; [simpl in Hlen; lia|]);
  destruct b; [|simpl in Hlen; lia]; clear Hlen.

Ltac bytes_inv :=
  repeat match goal with
         | H : bytes_ok (_ :: _) |- _ => apply Forall_cons in H as [? H]
         | H : Forall byte_ok (_ :: _) |- _ => apply Forall_cons in H as [? H]
         end.

Lemma mul2_bytes_16 b0 b1 b2 b3 b4 b5 b6 b7 b8 b9 b10 b11 b12 b13 b14 b15 :
  let m x y := ToUint8 (Z.lxor (Z.shiftl x 1)
                          (if truthy (Z.land y 0x80) then 1 else 0)) in
  mul2_bytes [b0; b1; b2; b3; b4; b5; b6; b7; b8; b9; b10; b11; b12; b13; b14; b15]
  = [m b0 b1; m b1 b2; m b2 b3; m b3 b4; m b4 b5; m b5 b6; m b6 b7; m b7 b8;
     m b8 b9; m b9 b10; m b10 b11; m b11 b12; m b12 b13; m b13 b14; m b14 b15;
     ToUint8 (Z.lxor (Z.shiftl b15 1) (if truthy (Z.land b0 0x80) then 0x87 else 0))].
Proof. reflexivity. Qed.

(** The bit that leaves at the top is the 0x80 bit of the first byte. *)
Lemma msb_first_byte b :
  length b = blockLength → bytes_ok b →
  Z.testbit (be_value b) 127 = Z.testbit (ToInt32 (b !! 0%nat)) 7.
Proof.
  intros Hlen Hb. unfold blockLength in Hlen. list16 b Hlen. bytes_inv.
  rewrite !testbit_div by lia. f_equal.
  unfold be_value, byte_ok in *. simpl.
  Z.div_mod_to_equations. lia.
Qed.

(** On a block of sixteen bytes the loop of [mul2] shifts the 128-bit
    big-endian value left by one bit and reduces it. *)
Lemma mul2_bytes_value b :
  length b = blockLength → bytes_ok b →
  bytes_ok (mul2_bytes b)
  ∧ be_value (mul2_bytes b)
    = Z.lxor (Z.shiftl (be_value b) 1 mod 2 ^ 128)
             (if Z.testbit (be_value b) 127 then 0x87 else 0).
Proof.
  intros Hlen Hb. rewrite (msb_first_byte b Hlen Hb).
  unfold blockLength in Hlen. list16 b Hlen. bytes_inv.
  set (V := be_value (_ :: _)).
  rewrite mul2_bytes_16. cbv zeta.
  rewrite !mul2_byte, mul2_byte_last by done.
  cbn [lookup list_lookup ToInt32 default from_option id].
  match goal with
  | |- bytes_ok (?r0 :: ?r1 :: ?r2 :: ?r3 :: ?r4 :: ?r5 :: ?r6 :: ?r7 :: ?r8
                 :: ?r9 :: ?r10 :: ?r11 :: ?r12 :: ?r13 :: ?r14 :: [?r15]) ∧ _ =>
      change (r0 :: r1 :: r2 :: r3 :: r4 :: r5 :: r6 :: r7 :: r8 :: r9 :: r10
              :: r11 :: r12 :: r13 :: r14 :: [r15])
        with ([r0; r1; r2; r3; r4; r5; r6; r7; r8; r9; r10; r11; r12; r13;
               r14] ++ [r15]);
      set (hi := [r0; r1; r2; r3; r4; r5; r6; r7; r8; r9; r10; r11; r12; r13;
                  r14]);
      assert (bytes_ok hi) as Hhi
  end.
  { unfold hi, byte_ok in *. repeat apply Forall_cons_2; try apply Forall_nil_2;
      unfold byte_ok; Z.div_mod_to_equations; lia. }
  assert (0 ≤ 2 * (z14 mod 128) < 256) as Hlo by (Z.div_mod_to_equations; lia).
  assert (0 ≤ (if Z.testbit z 7 then 135 else 0) < 256) as Hc
    by (destruct (Z.testbit z 7); lia).
  assert (Z.shiftl V 1 mod 2 ^ 128 = 256 * be_value hi + 2 * (z14 mod 128)) as ->.
  { rewrite Z.shiftl_mul_pow2 by lia.
    unfold V, hi, be_value, byte_ok in *. simpl.
    Z.div_mod_to_equations. lia. }
  rewrite lxor_low, <- be_value_snoc by done. split; [|done].
  apply Forall_app. split; [done|]. apply Forall_singleton.
  by apply lxor_byte; unfold byte_ok.
Qed.

(** So the loop of [mul2] is the doubling of the specification. *)
Lemma mul2_bytes_double b :
  length b = blockLength → bytes_ok b → mul2_bytes b = double b.
Proof.
  intros Hlen Hb. destruct (mul2_bytes_value b Hlen Hb) as [Hok Hval].
  unfold double. rewrite <- Hval, <- Hlen, <- (mul2_bytes_length b).
  symmetry. by apply be_bytes_be_value.
Qed.

(** ** [rightXorMut] *)

Lemma ta_get_view_Z (h : heap) a c (j : Z) :
  valid h a → length c = len a →
  ta_get a j (set_view h a c)
  = (set_view h a c, inr (if decide (0 ≤ j) then c !! Z.to_nat j else None)).
Proof. intros Hv Hc. unfold ta_get. by rewrite contents_set_view. Qed.

Lemma ta_set_view_Z (h : heap) a c (j : Z) v :
  valid h a → length c = len a →
  ta_set a j v (set_view h a c)
  = (set_view h a (if decide (0 ≤ j) then <[Z.to_nat j := ToUint8 v]> c else c),
     inr tt).
Proof.
  intros Hv Hc. destruct (decide (0 ≤ j)) as [Hj|Hj].
  - rewrite <- (Z2Nat.id j) at 1 by done. by apply ta_set_view_any.
  - apply ta_set_outside. lia.
Qed.

Lemma xor_at_length o p c i : length (xor_at o p c i) = length c.
Proof. unfold xor_at. case_decide; [|done]. by rewrite length_insert. Qed.

Lemma rightXorMut_run (h : heap) data pad_ :
  valid h data → buffer data ≠ buffer pad_ →
  rightXorMut data pad_ h
  = (set_view h data (rightXor_bytes (contents h data) (contents h pad_)),
     inr data).
Proof.
  intros Hv Hne. pose proof (contents_length h data Hv) as Hc.
  rewrite <- (set_view_id h data Hv) at 1.
  unfold rightXorMut, mbind, M_bind.
  rewrite (for_view h data
             (xor_at (Z.of_nat (len data) - Z.of_nat blockLength)
                     (contents h pad_))) with (c := contents h data);
    try done.
  - unfold rightXor_bytes. rewrite Hc. reflexivity.
  - intros c i Hl. by rewrite xor_at_length.
  - intros c i Hl. rewrite ta_get_view_Z by done.
    rewrite ta_get_view_ne by done. rewrite ta_set_view_Z by done.
    unfold xor_at. by case_decide.
Qed.

Lemma rightXor_bytes_nil p : rightXor_bytes [] p = [].
Proof. reflexivity. Qed.

Lemma xor_at_app pre t p i :
  xor_at (Z.of_nat (length pre)) p (pre ++ t) i
  = pre ++ <[i := ToUint8 (Z.lxor (ToInt32 (t !! i)) (ToInt32 (p !! i)))]> t.
Proof.
  unfold xor_at. rewrite decide_True by lia.
  replace (Z.to_nat (Z.of_nat i + Z.of_nat (length pre)))
    with (length pre + i)%nat by lia.
  by rewrite insert_app_r, lookup_app_r, Nat.add_comm, Nat.add_sub by lia.
Qed.

Lemma xor_at_0 p t i :
  xor_at 0 p t i
  = <[i := ToUint8 (Z.lxor (ToInt32 (t !! i)) (ToInt32 (p !! i)))]> t.
Proof. apply (xor_at_app [] t p i). Qed.

Lemma foldl_xor_at_app pre p js t :
  foldl (xor_at (Z.of_nat (length pre)) p) (pre ++ t) js
  = pre ++ foldl (xor_at 0 p) t js.
Proof.
  revert t. induction js as [|j js IH]; intros t; [done|].
  simpl. by rewrite xor_at_app, IH, xor_at_0.
Qed.

Lemma foldl_xor_at_0 p done todo :
  (length done + length todo ≤ length p)%nat →
  foldl (xor_at 0 p) (done ++ todo) (seq (length done) (length todo))
  = done ++ zip_with (λ d q, ToUint8 (Z.lxor d q)) todo (drop (length done) p).
Proof.
  revert done. induction todo as [|x todo IH]; intros done Hlen.
  { simpl. done. }
  destruct (lookup_lt_is_Some_2 p (length done)) as [q Hq];
    [simpl in Hlen; lia|].
  rewrite (drop_S p q (length done) Hq). simpl.
  rewrite xor_at_0, list_lookup_middle, Hq by done. simpl.
  replace (length done) with (length done + 0)%nat at 1 by lia.
  rewrite insert_app_r. simpl.
  specialize (IH (done ++ [ToUint8 (Z.lxor x q)])).
  rewrite length_app, Nat.add_1_r, <- !app_assoc in IH. simpl in IH.
  apply IH. simpl in Hlen. lia.
Qed.

Lemma zip_with_xor_bytes t p :
  bytes_ok t → bytes_ok p →
  zip_with (λ d q, ToUint8 (Z.lxor d q)) t p = zip_with Z.lxor t p.
Proof.
  intros Ht. revert p. induction Ht as [|x t Hx Ht IH]; intros p Hp; [done|].
  destruct Hp as [|q p Hq Hp]; [done|]. simpl.
  rewrite ToUint8_byte by (by apply lxor_byte). f_equal. by apply IH.
Qed.

Lemma zip_with_xor_ok t p :
  bytes_ok t → bytes_ok p → bytes_ok (zip_with Z.lxor t p).
Proof.
  intros Ht. revert p. induction Ht as [|x t Hx Ht IH]; intros p Hp.
  { apply Forall_nil_2. }
  destruct Hp as [|q p Hq Hp]; [apply Forall_nil_2|]. simpl.
  apply Forall_cons_2; [by apply lxor_byte|by apply IH].
Qed.

(** Sixteen bytes from the end on, the elements are XORed with the
    block; the others stay. *)
Lemma rightXor_bytes_tail c p :
  (blockLength ≤ length c)%nat → length p = blockLength →
  bytes_ok c → bytes_ok p →
  rightXor_bytes c p
  = take (length c - blockLength) c
    ++ zip_with Z.lxor (drop (length c - blockLength) c) p.
Proof.
  unfold blockLength. intros Hc Hp Hbc Hbp.
  rewrite <- (take_drop (length c - 16) c) in Hbc.
  apply Forall_app in Hbc as [_ Hbt]. unfold rightXor_bytes, blockLength.
  rewrite <- (take_drop (length c - 16) c) at 1 2.
  assert (length (drop (length c - 16) c) = 16%nat) as Ht
    by (rewrite length_drop; lia).
  set (pre := take (length c - 16) c) in *.
  set (t := drop (length c - 16) c) in *. clearbody t.
  replace (Z.of_nat (length (pre ++ t)) - Z.of_nat 16)
    with (Z.of_nat (length pre)) by (rewrite length_app; lia).
  rewrite foldl_xor_at_app. f_equal.
  pose proof (foldl_xor_at_0 p [] t) as Hf. simpl in Hf.
  rewrite Ht in Hf. rewrite Hf by lia.
  by apply zip_with_xor_bytes.
Qed.

(** ** Fresh buffers *)

Section fresh.
Implicit Types (h ext : heap) (a : Uint8Array) (b c : list Z).

Lemma valid_lt h a : valid h a → (buffer a < length h)%nat.
Proof. intros (l & Hl & _). by apply lookup_lt_Some in Hl. Qed.

Lemma valid_app h ext a : valid h a → valid (h ++ ext) a.
Proof.
  intros (l & Hl & Hle). exists l. split; [|done].
  by apply lookup_app_l_Some.
Qed.

Lemma contents_app h ext a :
  valid h a → contents (h ++ ext) a = contents h a.
Proof.
  intros (l & Hl & Hle). unfold contents.
  by rewrite (lookup_app_l_Some _ _ _ _ Hl), Hl.
Qed.

Lemma valid_fresh h b : valid (h ++ [b]) (mkU8 (length h) 0 (length b)).
Proof.
  exists b. simpl. split; [|done].
  by rewrite lookup_app_r, Nat.sub_diag by lia.
Qed.

Lemma contents_fresh h b :
  contents (h ++ [b]) (mkU8 (length h) 0 (length b)) = b.
Proof.
  unfold contents. simpl.
  rewrite lookup_app_r, Nat.sub_diag by lia. simpl.
  rewrite drop_0. by apply take_ge.
Qed.

Lemma set_view_fresh h b c :
  set_view (h ++ [b]) (mkU8 (length h) 0 (length b)) c = h ++ [c].
Proof.
  unfold set_view. simpl.
  replace (length h) with (length h + 0)%nat at 1 by lia.
  rewrite alter_app_r. simpl. by rewrite drop_all, app_nil_r.
Qed.

Lemma heap_ok_contents h a : heap_ok h → bytes_ok (contents h a).
Proof.
  intros Hh. unfold contents.
  apply Forall_take, Forall_drop.
  destruct (h !! buffer a) as [l|] eqn:Hl; simpl; [|apply Forall_nil_2].
  by eapply (Forall_lookup_1 _ h).
Qed.

Lemma heap_ok_app h b : heap_ok h → bytes_ok b → heap_ok (h ++ [b]).
Proof.
  intros Hh Hb. apply Forall_app. split; [done|]. by apply Forall_singleton.
Qed.

Lemma heap_ok_set_view h a c :
  heap_ok h → bytes_ok c → heap_ok (set_view h a c).
Proof.
  intros Hh Hc. unfold set_view, heap_ok. apply Forall_alter; [done|].
  intros l Hl Hbl. apply Forall_app. split; [by apply Forall_take|].
  apply Forall_app. split; [done|]. by apply Forall_drop.
Qed.
End fresh.

(** Loading the module allocates [zeroBlock]; on the empty store this is
    the environment the known answers are run in. *)
Lemma module_init_run web node (h : heap) :
  module_init web node h
  = (h ++ [zero16], inr (mkEnv web node (mkU8 (length h) 0 blockLength))).
Proof. reflexivity. Qed.

Lemma module_init_env3 web node :
  module_init web node [] = ([zero16], inr (env3 web node)).
Proof. reflexivity. Qed.

(** ** [pad] *)

Lemma rightXor_bytes_length c p : length (rightXor_bytes c p) = length c.
Proof.
  unfold rightXor_bytes. generalize (seq 0 blockLength).
  generalize (Z.of_nat (length c) - Z.of_nat blockLength).
  intros o js. revert c. induction js as [|j js IH]; intros c; [done|].
  simpl. by rewrite IH, xor_at_length.
Qed.

Lemma ta_set_from_run (h : heap) target source :
  (length (contents h source) ≤ len target)%nat →
  ta_set_from target source h
  = (set_view h target
       (contents h source
          ++ drop (length (contents h source)) (contents h target)),
     inr tt).
Proof.
  intros Hle. unfold ta_set_from, mbind, M_bind, ta_contents.
  rewrite decide_True by done. reflexivity.
Qed.

Lemma pad_run_aligned (h : heap) data p p2 :
  valid h data → buffer data ≠ buffer p →
  (len data `mod` blockLength = 0)%nat →
  pad data p p2 h
  = (set_view h data (rightXor_bytes (contents h data) (contents h p)),
     inr data).
Proof.
  intros Hv Hne Hal. unfold pad. rewrite decide_True by done.
  by apply rightXorMut_run.
Qed.

Lemma pad_run_unaligned (h : heap) data p p2 :
  valid h data → valid h p2 →
  (len data `mod` blockLength ≠ 0)%nat →
  pad data p p2 h
  = (h ++ [rightXor_bytes (extend (contents h data)) (contents h p2)],
     inr (mkU8 (length h) 0
            (len data + (blockLength - len data `mod` blockLength)))).
Proof.
  intros Hv Hv2 Hal. pose proof (contents_length h data Hv) as Hm.
  pose proof (Nat.mod_upper_bound (len data) blockLength) as Hlt.
  unfold blockLength in Hal, Hlt.
  unfold pad. rewrite decide_False by done.
  set (N := (len data + (blockLength - len data `mod` blockLength))%nat).
  assert (len data < N)%nat as HN by (unfold N, blockLength; lia).
  unfold mbind, M_bind, new_Uint8Array, alloc.
  rewrite length_replicate.
  pose proof (valid_fresh h (replicate N 0)) as Hvp.
  pose proof (contents_fresh h (replicate N 0)) as Hcp.
  rewrite length_replicate in Hvp, Hcp.
  set (P := mkU8 (length h) 0 N) in *.
  rewrite ta_set_from_run by (rewrite contents_app, Hm by done; simpl; lia).
  rewrite contents_app by done.
  rewrite Hcp, Hm, drop_replicate.
  assert (length (contents h data ++ replicate (N - len data) 0) = len P)
    as Hl2 by (rewrite length_app, length_replicate, Hm; simpl; lia).
  rewrite ta_set_view_any by done.
  set (c3 := <[len data := ToUint8 128]> _).
  assert (c3 = extend (contents h data)) as ->.
  { unfold c3, extend. rewrite <- Hm at 1.
    replace (length (contents h data))
      with (length (contents h data) + 0)%nat at 1 by lia.
    rewrite insert_app_r. f_equal.
    replace (N - len data)%nat
      with (S (blockLength - length (contents h data) `mod` blockLength - 1))
      by (rewrite Hm; unfold N, blockLength; lia).
    done. }
  assert (length (extend (contents h data)) = len P) as Hl3.
  { unfold extend. rewrite length_app. cbn [length].
    rewrite length_replicate, Hm. unfold P, N, blockLength. cbn [len]. lia. }
  rewrite rightXorMut_run.
  - rewrite contents_set_view by done.
    rewrite set_view_twice by done.
    rewrite contents_set_view_ne by (apply valid_lt in Hv2; simpl; lia).
    rewrite contents_app by done.
    pose proof (set_view_fresh h (replicate N 0)) as Hf.
    rewrite length_replicate in Hf. apply (f_equal (λ x, (x, _))), Hf.
  - by apply valid_set_view.
  - apply valid_lt in Hv2. simpl. lia.
Qed.

(** ** CBC chaining and the providers *)

Lemma subarray_drop_last b n :
  subarray (mkU8 b 0 (n + blockLength))
           0 (Some (Z.of_nat (n + blockLength) - Z.of_nat blockLength))
  = mkU8 b 0 n.
Proof.
  unfold subarray, relative_index. simpl.
  rewrite decide_False by lia. f_equal; lia.
Qed.

Lemma subarray_last b n :
  subarray (mkU8 b 0 n) (- Z.of_nat blockLength) None
  = mkU8 b (n - blockLength) (n - (n - blockLength)).
Proof.
  unfold subarray, relative_index, blockLength. simpl.
  f_equal; lia.
Qed.

Lemma xor_block_zero16 : xor_block (take blockLength zero16) zero16 = zero16.
Proof. reflexivity. Qed.

Lemma zero16_ok : bytes_ok zero16.
Proof. apply Forall_replicate. unfold byte_ok. lia. Qed.

Section cipher.
Context `{BlockCipher}.

Lemma cbc_chain_length n k iv p :
  length (cbc_chain n k iv p) = (n * blockLength)%nat.
Proof.
  revert iv p. induction n as [|n IH]; intros iv p; [done|].
  simpl. by rewrite length_app, E_length, IH.
Qed.

Lemma cbc_chain_bytes n k iv p :
  bytes_ok k → bytes_ok iv → bytes_ok p → bytes_ok (cbc_chain n k iv p).
Proof.
  intros Hk. revert iv p. induction n as [|n IH]; intros iv p Hiv Hp.
  { apply Forall_nil_2. }
  assert (bytes_ok (E k (xor_block (take blockLength p) iv))) as HE.
  { apply E_bytes; [done|]. apply zip_with_xor_ok; [|done].
    by apply Forall_take. }
  simpl. apply Forall_app. split; [done|].
  apply IH; [done|]. by apply Forall_drop.
Qed.

(** Blocks appended to the plaintext do not change the ciphertext of
    the blocks before them. *)
Lemma cbc_chain_prefix n m k iv p q :
  length p = (n * blockLength)%nat →
  take (n * blockLength) (cbc_chain (n + m) k iv (p ++ q))
  = cbc_chain n k iv p.
Proof.
  revert iv p. induction n as [|n IH]; intros iv p Hp; [done|].
  cbn [Nat.add cbc_chain].
  rewrite (take_app_le p q blockLength), (drop_app_le p q blockLength)
    by (unfold blockLength in *; lia).
  replace (S n * blockLength)%nat
    with (length (E k (xor_block (take blockLength p) iv))
          + n * blockLength)%nat
    by (rewrite E_length; unfold blockLength; lia).
  rewrite take_app_add'; [|done]. f_equal.
  apply IH. rewrite length_drop. unfold blockLength in *. lia.
Qed.

Lemma cbc_chain_one k iv p :
  cbc_chain 1 k iv p = E k (xor_block (take blockLength p) iv).
Proof. simpl. apply app_nil_r. Qed.
End cipher.

Lemma aligned_div n :
  (n `mod` blockLength = 0)%nat → (n / blockLength * blockLength)%nat = n.
Proof.
  intros Hn. pose proof (Nat.div_mod_eq n blockLength) as Hd.
  rewrite Hn in Hd. lia.
Qed.

Lemma pkcs7_ok p : bytes_ok p → bytes_ok (pkcs7 p).
Proof.
  intros Hp. unfold pkcs7. apply Forall_app. split; [done|].
  apply Forall_replicate. unfold byte_ok, blockLength. lia.
Qed.

Section runs.
Context `{BlockCipher} (env : Env).

(** Given an accepted key and whole blocks, every provider puts the CBC
    ciphertext into a fresh buffer and returns a view on it. *)
Lemma call_cbc_run f pt (h : heap) :
  key_size_ok (cbc_key_len f) = true →
  valid h pt → (len pt `mod` blockLength = 0)%nat →
  ∃ buf,
    call_cbc env f pt h = (h ++ [buf], inr (mkU8 (length h) 0 (len pt)))
    ∧ (len pt ≤ length buf)%nat
    ∧ take (len pt) buf
      = cbc_chain (len pt / blockLength) (cbc_key h f)
          (contents h (zeroBlock env)) (contents h pt)
    ∧ (bytes_ok (cbc_key h f) → heap_ok h → bytes_ok buf).
Proof.
  intros Hks Hv Hal. pose proof (contents_length h pt Hv) as Hp.
  pose proof (aligned_div _ Hal) as Hdiv.
  destruct f as [k|k|key]; simpl in Hks;
    unfold call_cbc, mbind, M_bind, ta_contents, alloc; cbn [cbc_key].
  - eexists. split; [|split; [|split]].
    + rewrite cbc_chain_length, Hp.
      replace ((len pt / blockLength + 1) * blockLength)%nat
        with (len pt + blockLength)%nat by lia.
      unfold mret, M_ret. by rewrite subarray_drop_last.
    + rewrite cbc_chain_length, ?Hp. lia.
    + rewrite ?Hp. rewrite <- Hdiv at 1. unfold pkcs7.
      apply cbc_chain_prefix. by rewrite Hp, Hdiv.
    + intros Hk Hh. apply cbc_chain_bytes; [done| |].
      * by apply heap_ok_contents.
      * by apply pkcs7_ok, heap_ok_contents.
  - rewrite Hks. eexists. split; [|split; [|split]].
    + by rewrite cbc_chain_length, ?Hp, Hdiv.
    + rewrite cbc_chain_length, ?Hp. lia.
    + rewrite ?Hp. apply take_ge. rewrite cbc_chain_length. lia.
    + intros Hk Hh. by apply cbc_chain_bytes; [|apply heap_ok_contents..].
  - rewrite Hks, decide_True by done. eexists. split; [|split; [|split]].
    + by rewrite cbc_chain_length, ?Hp, Hdiv.
    + rewrite cbc_chain_length, ?Hp. lia.
    + rewrite ?Hp. apply take_ge. rewrite cbc_chain_length. lia.
    + intros Hk Hh. by apply cbc_chain_bytes; [|apply heap_ok_contents..].
Qed.
End runs.

(** ** Bytes stay bytes *)

Lemma be_bytes_length n v : length (be_bytes n v) = n.
Proof.
  revert v. induction n as [|n IH]; intros v; [done|].
  simpl. rewrite length_app, IH. simpl. lia.
Qed.

Lemma be_bytes_ok n v : bytes_ok (be_bytes n v).
Proof.
  revert v. induction n as [|n IH]; intros v; [apply Forall_nil_2|].
  simpl. apply Forall_app. split; [apply IH|].
  apply Forall_singleton, ToUint8_ok.
Qed.

Lemma double_length b : length (double b) = blockLength.
Proof. apply be_bytes_length. Qed.

Lemma double_ok b : bytes_ok (double b).
Proof. apply be_bytes_ok. Qed.

Lemma rightXor_bytes_ok c p : bytes_ok c → bytes_ok (rightXor_bytes c p).
Proof.
  unfold rightXor_bytes. generalize (seq 0 blockLength).
  generalize (Z.of_nat (length c) - Z.of_nat blockLength).
  intros o js. revert c. induction js as [|j js IH]; intros c Hc; [done|].
  simpl. apply IH. unfold xor_at. case_decide; [|done].
  apply Forall_insert; [done|apply ToUint8_ok].
Qed.

Lemma extend_ok m : bytes_ok m → bytes_ok (extend m).
Proof.
  intros Hm. unfold extend. apply Forall_app. split; [done|].
  apply Forall_cons_2; [unfold byte_ok; lia|].
  apply Forall_replicate. unfold byte_ok. lia.
Qed.

Lemma extend_length m :
  length (extend m)
  = (length m + (blockLength - length m `mod` blockLength))%nat.
Proof.
  unfold extend. rewrite length_app. cbn [length]. rewrite length_replicate.
  pose proof (Nat.mod_upper_bound (length m) blockLength).
  unfold blockLength in *. lia.
Qed.

Lemma padded_bytes_ok m k1 k2 : bytes_ok m → bytes_ok (padded_bytes m k1 k2).
Proof.
  intros Hm. unfold padded_bytes.
  case_decide; apply rightXor_bytes_ok; [done|by apply extend_ok].
Qed.

Lemma padded_bytes_length m k1 k2 :
  length (padded_bytes m k1 k2)
  = if decide (length m `mod` blockLength = 0)%nat then length m
    else (length m + (blockLength - length m `mod` blockLength))%nat.
Proof.
  unfold padded_bytes.
  case_decide; rewrite rightXor_bytes_length; [done|apply extend_length].
Qed.

(** The padded message is always a whole number of blocks. *)
Lemma padded_bytes_aligned m k1 k2 :
  (length (padded_bytes m k1 k2) `mod` blockLength = 0)%nat.
Proof.
  rewrite padded_bytes_length. case_decide as Hal; [done|].
  pose proof (Nat.div_mod_eq (length m) blockLength) as Hd.
  pose proof (Nat.mod_upper_bound (length m) blockLength) as Hlt.
  replace (length m + (blockLength - length m `mod` blockLength))%nat
    with ((length m / blockLength + 1) * blockLength)%nat
    by (unfold blockLength in *; lia).
  apply Nat.Div0.mod_mul.
Qed.

(** ** Views on the newest buffer *)

Lemma valid_last (h : heap) buf n :
  (n ≤ length buf)%nat → valid (h ++ [buf]) (mkU8 (length h) 0 n).
Proof.
  intros Hn. exists buf. simpl. split; [|done].
  by rewrite lookup_app_r, Nat.sub_diag by lia.
Qed.

Lemma contents_last (h : heap) buf o n :
  contents (h ++ [buf]) (mkU8 (length h) o n) = take n (drop o buf).
Proof.
  unfold contents. simpl. by rewrite lookup_app_r, Nat.sub_diag by lia.
Qed.

Lemma set_view_last (h : heap) buf n c :
  set_view (h ++ [buf]) (mkU8 (length h) 0 n) c = h ++ [c ++ drop n buf].
Proof.
  unfold set_view. simpl.
  replace (length h) with (length h + 0)%nat at 1 by lia.
  by rewrite alter_app_r.
Qed.

(** [mul2] on a view of the first sixteen bytes of the newest buffer. *)
Lemma mul2_last (h : heap) buf :
  (blockLength ≤ length buf)%nat → bytes_ok buf →
  mul2 (mkU8 (length h) 0 blockLength) (h ++ [buf])
  = (h ++ [double (take blockLength buf) ++ drop blockLength buf],
     inr (mkU8 (length h) 0 blockLength)).
Proof.
  intros Hle Hb. rewrite mul2_run by (by apply valid_last).
  rewrite contents_last, drop_0, set_view_last.
  rewrite mul2_bytes_double; [done| |by apply Forall_take].
  rewrite length_take. lia.
Qed.

Lemma slice_last (h : heap) buf n :
  slice (mkU8 (length h) 0 n) (h ++ [buf])
  = (h ++ [buf; take n buf],
     inr (mkU8 (S (length h)) 0 (length (take n buf)))).
Proof.
  unfold slice, mbind, M_bind, ta_contents, alloc.
  rewrite contents_last, drop_0, length_app, <- app_assoc. simpl.
  by rewrite Nat.add_1_r.
Qed.

(** ** [CMAC]: the subkeys *)


Section mac.
Context `{BlockCipher} (env : Env).

Lemma CBC_run key (h : heap) :
  valid h key → key_size_ok (len key) = true →
  ∃ f, CBC env key h = (h, inr f)
       ∧ cbc_key h f = contents h key
       ∧ cbc_key_len f = len key
       ∧ match f with AsmCBC key' => key' = key | _ => True end.
Proof.
  intros Hv Hks. pose proof (contents_length h key Hv) as Hk. unfold CBC.
  destruct (webCrypto env && negb (len key =? 24)%nat).
  - exists (WebCryptoCBC (contents h key)).
    unfold mbind, M_bind, ta_contents. by rewrite Hks.
  - destruct (nodeCrypto env).
    + by exists (NodeCBC (contents h key)).
    + by exists (AsmCBC key).
Qed.

Lemma subkey1_length k : length (subkey1 k) = blockLength.
Proof. apply double_length. Qed.
Lemma subkey2_length k : length (subkey2 k) = blockLength.
Proof. apply double_length. Qed.

(** For an accepted key [CMAC] allocates two buffers: the first begins
    with K1 = double(E_K(0)), the second is K2 = double(K1). *)
Lemma CMAC_run key (h : heap) :
  heap_ok h → valid h key →
  valid h (zeroBlock env) → contents h (zeroBlock env) = zero16 →
  key_size_ok (len key) = true →
  ∃ cbc rest,
    let k := contents h key in
    let f := mkMac cbc (mkU8 (length h) 0 blockLength)
                       (mkU8 (S (length h)) 0 blockLength) in
    CMAC env key h = (h ++ [subkey1 k ++ rest; subkey2 k], inr f)
    ∧ CBC env key h = (h, inr cbc)
    ∧ prepared env f k (h ++ [subkey1 k ++ rest; subkey2 k]).
Proof.
  intros Hh Hv Hvz Hz Hks.
  destruct (CBC_run key h Hv Hks) as (cbc & HCBC & Hkey & Hlen & Hasm).
  assert (len (zeroBlock env) = blockLength) as Hzl
    by (by rewrite <- (contents_length h _ Hvz), Hz).
  destruct (call_cbc_run env cbc (zeroBlock env) h)
    as (buf & Hcall & Hle & Htake & Hbuf);
    [by rewrite Hlen|done|by rewrite Hzl|].
  rewrite Hzl in Hcall, Hle, Htake.
  change (blockLength / blockLength)%nat with 1%nat in Htake.
  rewrite cbc_chain_one, Hz, xor_block_zero16, Hkey in Htake.
  assert (bytes_ok (contents h key)) as Hkb by (by apply heap_ok_contents).
  assert (bytes_ok (E (contents h key) zero16)) as HL
    by (apply E_bytes; [done|apply zero16_ok]).
  exists cbc, (drop blockLength buf). cbv zeta.
  set (k := contents h key) in *.
  assert (CMAC env key h
          = (h ++ [subkey1 k ++ drop blockLength buf; subkey2 k],
             inr (mkMac cbc (mkU8 (length h) 0 blockLength)
                            (mkU8 (S (length h)) 0 blockLength)))) as HC.
  { assert (bytes_ok buf) as Hbb by (apply Hbuf; [by rewrite Hkey|done]).
    unfold CMAC, mbind, M_bind. rewrite HCBC, Hcall.
    rewrite mul2_last, Htake by done. fold (subkey1 k).
    rewrite slice_last.
    rewrite take_app_length' by (by rewrite subkey1_length).
    rewrite subkey1_length.
    change (h ++ [subkey1 k ++ drop blockLength buf; subkey1 k])
      with (h ++ [subkey1 k ++ drop blockLength buf] ++ [subkey1 k]).
    rewrite app_assoc.
    replace (S (length h))
      with (length (h ++ [subkey1 k ++ drop blockLength buf]))
      by (rewrite length_app; simpl; lia).
    rewrite mul2_last;
      [|by rewrite subkey1_length|apply double_ok].
    rewrite take_ge, (drop_ge (subkey1 k)), app_nil_r
      by (rewrite subkey1_length; lia).
    fold (subkey2 k). unfold mret, M_ret.
    by rewrite <- app_assoc. }
  split; [done|]. split; [done|].
  assert (bytes_ok (subkey1 k ++ drop blockLength buf)) as Hb1.
  { apply Forall_app. split; [apply double_ok|].
    apply Forall_drop, Hbuf; [by rewrite Hkey|done]. }
  change (h ++ [subkey1 k ++ drop blockLength buf; subkey2 k])
    with (h ++ [subkey1 k ++ drop blockLength buf] ++ [subkey2 k]).
  rewrite app_assoc.
  split; cbn [padding padding2 mac_cbc].
  - apply heap_ok_app; [by apply heap_ok_app|apply double_ok].
  - by rewrite <- app_assoc; apply valid_app.
  - by rewrite <- app_assoc, contents_app.
  - destruct cbc as [?|?|key']; [done|done|]. subst key'. cbn [cbc_key].
    by rewrite <- app_assoc, contents_app.
  - done.
  - destruct cbc as [?|?|key']; [done|done|]. subst key'.
    by rewrite <- app_assoc; apply valid_app.
  - by rewrite Hlen.
  - apply valid_app, valid_last. rewrite length_app, subkey1_length. lia.
  - rewrite contents_app
      by (apply valid_last; rewrite length_app, subkey1_length; lia).
    rewrite contents_last, drop_0.
    by rewrite take_app_length' by (by rewrite subkey1_length).
  - rewrite <- (subkey2_length k).
    replace (S (length h))
      with (length (h ++ [subkey1 k ++ drop blockLength buf]))
      by (rewrite length_app; simpl; lia).
    apply valid_fresh.
  - rewrite <- (subkey2_length k).
    replace (S (length h))
      with (length (h ++ [subkey1 k ++ drop blockLength buf]))
      by (rewrite length_app; simpl; lia).
    apply contents_fresh.
Qed.
End mac.

(** ** The prepared state is stable *)

Section mac_function.
Context `{BlockCipher} (env : Env).

Lemma prepared_app f k (h : heap) b :
  prepared env f k h → bytes_ok b → prepared env f k (h ++ [b]).
Proof.
  intros [Hh Hvz Hz Hk Hkb Hkv Hks Hv1 Hk1 Hv2 Hk2] Hb. split.
  - by apply heap_ok_app.
  - by apply valid_app.
  - by rewrite contents_app.
  - destruct (mac_cbc f) as [?|?|key]; [done|done|].
    cbn [cbc_key] in *. by rewrite contents_app.
  - done.
  - destruct (mac_cbc f) as [?|?|key]; [done|done|]. by apply valid_app.
  - done.
  - by apply valid_app.
  - by rewrite contents_app.
  - by apply valid_app.
  - by rewrite contents_app.
Qed.

Lemma not_private f data :
  buffer data ∉ private env f →
  buffer data ≠ buffer (padding f) ∧ buffer data ≠ buffer (padding2 f)
  ∧ buffer data ≠ buffer (zeroBlock env)
  ∧ match mac_cbc f with
    | AsmCBC key => buffer data ≠ buffer key
    | _ => True
    end.
Proof.
  unfold private. intros Hn.
  apply not_elem_of_cons in Hn as [H1 Hn].
  apply not_elem_of_cons in Hn as [H2 Hn].
  apply not_elem_of_cons in Hn as [H3 Hn].
  repeat split; try done.
  destruct (mac_cbc f); [done|done|].
  by apply not_elem_of_cons in Hn as [H4 _].
Qed.

Lemma prepared_set_view f k (h : heap) data c :
  prepared env f k h → message_ok env f h data →
  bytes_ok c → length c = len data →
  prepared env f k (set_view h data c).
Proof.
  intros [Hh Hvz Hz Hk Hkb Hkv Hks Hv1 Hk1 Hv2 Hk2] [Hvd Hnp] Hc Hl.
  apply not_private in Hnp as (Hn1 & Hn2 & Hn3 & Hn4). split.
  - by apply heap_ok_set_view.
  - by apply valid_set_view.
  - by rewrite contents_set_view_ne.
  - destruct (mac_cbc f) as [?|?|key]; [done|done|].
    cbn [cbc_key] in *. by rewrite contents_set_view_ne.
  - done.
  - destruct (mac_cbc f) as [?|?|key]; [done|done|].
    by apply valid_set_view.
  - done.
  - by apply valid_set_view.
  - by rewrite contents_set_view_ne.
  - by apply valid_set_view.
  - by rewrite contents_set_view_ne.
Qed.

(** [pad] under a prepared MAC: a block-aligned message is overwritten
    in place, any other is copied into a fresh buffer. *)
Lemma pad_run f k data (h : heap) :
  prepared env f k h → message_ok env f h data →
  let pb := padded_bytes (contents h data) (subkey1 k) (subkey2 k) in
  let aligned := decide (len data `mod` blockLength = 0)%nat in
  let h1 := if aligned then set_view h data pb else h ++ [pb] in
  let padded := if aligned then data else mkU8 (length h) 0 (length pb) in
  pad data (padding f) (padding2 f) h = (h1, inr padded)
  ∧ valid h1 padded ∧ contents h1 padded = pb ∧ len padded = length pb
  ∧ prepared env f k h1.
Proof.
  intros Hprep Hmsg. pose proof Hprep as Hprep'. pose proof Hmsg as Hmsg'.
  destruct Hprep' as [Hh Hvz Hz Hk Hkb Hkv Hks Hv1 Hk1 Hv2 Hk2].
  destruct Hmsg' as [Hvd Hnp].
  apply not_private in Hnp as (Hn1 & Hn2 & Hn3 & Hn4).
  pose proof (contents_length h data Hvd) as Hm.
  assert (bytes_ok (padded_bytes (contents h data) (subkey1 k) (subkey2 k)))
    as Hpb by (by apply padded_bytes_ok, heap_ok_contents).
  pose proof (padded_bytes_length (contents h data) (subkey1 k) (subkey2 k))
    as Hpl.
  cbv zeta. unfold padded_bytes in *. rewrite Hm in *.
  destruct (decide (len data `mod` blockLength = 0)%nat) as [Hal|Hal].
  - rewrite pad_run_aligned, Hk1 by done.
    split; [done|]. split; [by apply valid_set_view|].
    split; [by apply contents_set_view|]. split; [done|].
    by apply prepared_set_view.
  - rewrite pad_run_unaligned, Hk2 by done. rewrite Hpl.
    split; [done|]. rewrite <- Hpl.
    split; [apply valid_fresh|]. split; [apply contents_fresh|].
    split; [done|]. by apply prepared_app.
Qed.

(** The function returned by [CMAC] pads, encrypts into a fresh buffer,
    and returns a view of the last block of that buffer. *)
Lemma MacFunction_run f k data (h : heap) :
  prepared env f k h → message_ok env f h data →
  let pb := padded_bytes (contents h data) (subkey1 k) (subkey2 k) in
  let h1 := if decide (len data `mod` blockLength = 0)%nat
            then set_view h data pb else h ++ [pb] in
  ∃ buf,
    MacFunction env f data h
    = (h1 ++ [buf],
       inr (subarray (mkU8 (length h1) 0 (length pb))
                     (- Z.of_nat blockLength) None))
    ∧ (length pb ≤ length buf)%nat
    ∧ take (length pb) buf = cbc_encrypt k pb
    ∧ prepared env f k (h1 ++ [buf]).
Proof.
  intros Hprep Hmsg.
  destruct (pad_run f k data h Hprep Hmsg)
    as (Hpad & Hvp & Hcp & Hlp & Hprep1).
  cbv zeta in *.
  set (pb := padded_bytes (contents h data) (subkey1 k) (subkey2 k)) in *.
  set (h1 := if decide (len data `mod` blockLength = 0)%nat
             then set_view h data pb else h ++ [pb]) in *.
  set (padded := if decide (len data `mod` blockLength = 0)%nat
                 then data else mkU8 (length h) 0 (length pb)) in *.
  destruct Hprep1 as [Hh Hvz Hz Hk Hkb Hkv Hks Hv1 Hk1 Hv2 Hk2].
  destruct (call_cbc_run env (mac_cbc f) padded h1)
    as (buf & Hcall & Hle & Htake & Hbuf);
    [done|done|rewrite Hlp; apply padded_bytes_aligned|].
  rewrite Hlp, Hk, Hz, Hcp in *.
  exists buf. split; [|split; [done|split; [done|]]].
  - unfold MacFunction, mbind, M_bind. by rewrite Hpad, Hcall.
  - apply prepared_app; [by split|by apply Hbuf].
Qed.
End mac_function.

(** ** The reference AES is a block cipher *)

Module AESFacts.
Import AES.

Lemma sbox_table_ok : bytes_ok sbox_table.
Proof.
  apply Forall_forall. intros x Hx.
  assert (forallb (λ x, (0 <=? x) && (x <? 256)) sbox_table = true) as Hall
    by (by vm_compute).
  rewrite forallb_forall in Hall.
  apply list_elem_of_In, Hall in Hx. unfold byte_ok. lia.
Qed.

Lemma lookup_default_ok (l : list Z) (i : nat) :
  bytes_ok l → byte_ok (default 0 (l !! i)).
Proof.
  intros Hl. destruct (l !! i) as [x|] eqn:Hx; simpl.
  - by eapply (Forall_lookup_1 _ l).
  - unfold byte_ok. lia.
Qed.

Lemma sbox_ok b : byte_ok (sbox b).
Proof. apply lookup_default_ok, sbox_table_ok. Qed.

Lemma fmap_sbox_ok l : bytes_ok (sbox <$> l).
Proof. apply Forall_fmap, Forall_true. intros x. apply sbox_ok. Qed.

Lemma fmap_lookup_ok (w : list Z) (f : nat → nat) js :
  bytes_ok w → bytes_ok ((λ j, default 0 (w !! f j)) <$> js).
Proof.
  intros Hw. apply Forall_fmap, Forall_true. intros j.
  by apply lookup_default_ok.
Qed.

Lemma xtime_ok b : byte_ok (xtime b).
Proof.
  assert (byte_ok (Z.land (Z.shiftl b 1) 255)) as Hs.
  { unfold byte_ok. change 255 with (Z.ones 8).
    rewrite Z.land_ones by lia. apply Z.mod_pos_bound. lia. }
  unfold xtime. destruct (Z.testbit b 7); [|done].
  apply lxor_byte; [done|]. unfold byte_ok. lia.
Qed.

Lemma Rcon_ok j : byte_ok (Rcon j).
Proof.
  induction j as [|[|j] IH]; [unfold byte_ok; simpl; lia..|].
  apply xtime_ok.
Qed.

Lemma expand_step_ok Nk w i : bytes_ok w → bytes_ok (expand_step Nk w i).
Proof.
  intros Hw. unfold expand_step. apply Forall_app. split; [done|].
  apply zip_with_xor_ok; [by apply fmap_lookup_ok|].
  destruct (_ =? _)%nat.
  - apply zip_with_xor_ok; [apply fmap_sbox_ok|].
    repeat apply Forall_cons_2; try apply Forall_nil_2;
      (apply Rcon_ok || (unfold byte_ok; lia)).
  - destruct (_ && _); [apply fmap_sbox_ok|by apply fmap_lookup_ok].
Qed.

Lemma KeyExpansion_ok key : bytes_ok key → bytes_ok (KeyExpansion key).
Proof.
  unfold KeyExpansion. generalize (length key / 4)%nat as Nk.
  intros Nk. generalize (seq Nk (4 * (Nk + 6 + 1) - Nk)) as js.
  intros js. revert key. induction js as [|j js IH]; intros key Hk; [done|].
  simpl. by apply IH, expand_step_ok.
Qed.

Lemma round_key_length w r : length (round_key w r) = 16%nat.
Proof. unfold round_key. by rewrite length_fmap, length_seq. Qed.

Lemma Cipher_length key block : length (Cipher key block) = blockLength.
Proof.
  unfold Cipher, AddRoundKey.
  rewrite length_zip_with, round_key_length. unfold ShiftRows.
  by rewrite length_fmap.
Qed.

Lemma Cipher_ok key block :
  bytes_ok key → bytes_ok block → bytes_ok (Cipher key block).
Proof.
  intros Hk _. unfold Cipher, AddRoundKey. apply zip_with_xor_ok.
  - unfold ShiftRows, SubBytes.
    apply (fmap_lookup_ok _ (λ i, i)), fmap_sbox_ok.
  - unfold round_key.
    by apply (fmap_lookup_ok _ (λ j, (16 * _ + j)%nat)), KeyExpansion_ok.
Qed.
End AESFacts.

Global Instance AES_cipher : BlockCipher := {|
  E := AES.Cipher;
  E_length := AESFacts.Cipher_length;
  E_bytes := AESFacts.Cipher_ok
|}.

(** ** No call fails without cause *)

Lemma for_total body :
  (∀ i (h : heap), ∃ h', body i h = (h', inr tt)) →
  ∀ n lo (h : heap), ∃ h', for_ lo n body h = (h', inr tt).
Proof.
  intros Hbody. induction n as [|n IH]; intros lo h; [by exists h|].
  destruct (Hbody lo h) as [h1 H1]. destruct (IH (S lo) h1) as [h2 H2].
  exists h2. simpl. unfold mbind, M_bind. by rewrite H1.
Qed.

Lemma rightXorMut_total data p (h : heap) :
  ∃ h', rightXorMut data p h = (h', inr data).
Proof.
  unfold rightXorMut.
  edestruct (for_total
    (λ i, d ← ta_get data (Z.of_nat i
                           + (Z.of_nat (len data) - Z.of_nat blockLength));
          q ← ta_get p (Z.of_nat i);
          ta_set data (Z.of_nat i + (Z.of_nat (len data) - Z.of_nat blockLength))
                 (Z.lxor (ToInt32 d) (ToInt32 q)))) as [h' Hfor].
  { intros i h0. by eexists. }
  exists h'. unfold mbind at 1, M_bind at 1. by rewrite Hfor.
Qed.

Lemma contents_length_le (h : heap) a : (length (contents h a) ≤ len a)%nat.
Proof. unfold contents. rewrite length_take. lia. Qed.

Lemma new_Uint8Array_run n (h : heap) :
  new_Uint8Array n h = (h ++ [replicate n 0], inr (mkU8 (length h) 0 n)).
Proof. unfold new_Uint8Array, alloc. by rewrite length_replicate. Qed.

Lemma ta_set_from_total target source (h : heap) :
  (len source ≤ len target)%nat →
  ∃ h', ta_set_from target source h = (h', inr tt).
Proof.
  intros Hle. eexists. apply ta_set_from_run.
  pose proof (contents_length_le h source). lia.
Qed.

Lemma ta_set_total a i v (h : heap) : ∃ h', ta_set a i v h = (h', inr tt).
Proof. by eexists. Qed.

(** [pad] always returns a view of a whole number of blocks. *)
Lemma pad_total data p p2 (h : heap) :
  ∃ h' r, pad data p p2 h = (h', inr r)
          ∧ len r = if decide (len data `mod` blockLength = 0)%nat
                    then len data
                    else (len data + (blockLength - len data `mod` blockLength))%nat.
Proof.
  unfold pad. destruct (decide _) as [Hal|Hal].
  - destruct (rightXorMut_total data p h) as [h' Hr].
    exists h', data. split; [exact Hr|reflexivity].
  - set (N := (len data + (blockLength - len data `mod` blockLength))%nat).
    set (P := mkU8 (length h) 0 N).
    destruct (ta_set_from_total P data (h ++ [replicate N 0]))
      as [h1 H1]; [unfold P, N; cbn [len]; lia|].
    destruct (ta_set_total P (Z.of_nat (len data)) 128 h1) as [h2 H2].
    destruct (rightXorMut_total P p2 h2) as [h3 H3].
    exists h3, P. split; [|reflexivity].
    unfold mbind, M_bind. rewrite new_Uint8Array_run. fold P.
    rewrite H1, H2. exact H3.
Qed.

Lemma next_multiple n :
  ((n + (blockLength - n `mod` blockLength)) `mod` blockLength = 0)%nat.
Proof.
  pose proof (Nat.div_mod_eq n blockLength) as Hd.
  pose proof (Nat.mod_upper_bound n blockLength) as Hlt.
  replace (n + (blockLength - n `mod` blockLength))%nat
    with ((n / blockLength + 1) * blockLength)%nat
    by (unfold blockLength in *; lia).
  apply Nat.Div0.mod_mul.
Qed.

Lemma pad_aligned data p p2 (h : heap) :
  ∃ h' r, pad data p p2 h = (h', inr r) ∧ (len r `mod` blockLength = 0)%nat.
Proof.
  destruct (pad_total data p p2 h) as (h' & r & Hpad & Hlen).
  exists h', r. split; [done|]. rewrite Hlen.
  case_decide; [done|apply next_multiple].
Qed.

Section total.
Context `{BlockCipher} (env : Env).

Lemma call_cbc_total f pt (h : heap) :
  key_size_ok (cbc_key_len f) = true →
  (len pt `mod` blockLength = 0)%nat →
  ∃ h' v, call_cbc env f pt h = (h', inr v).
Proof.
  intros Hks Hal. destruct f as [k|k|key]; simpl in Hks;
    unfold call_cbc, mbind, M_bind, ta_contents, alloc.
  - by eexists _, _.
  - rewrite Hks. by eexists _, _.
  - rewrite Hks, decide_True by done. by eexists _, _.
Qed.

Lemma call_cbc_never_misaligned f pt (h : heap) :
  (len pt `mod` blockLength = 0)%nat →
  snd (call_cbc env f pt h) ≠ inl MisalignedInput.
Proof.
  intros Hal. destruct f as [k|k|key];
    unfold call_cbc, mbind, M_bind, ta_contents, alloc, throw.
  - done.
  - by destruct (key_size_ok _).
  - rewrite decide_True by done. by destruct (key_size_ok _).
Qed.

(** Once the key has been accepted, the function returned by [CMAC]
    returns a tag for every message, whatever the store. *)
Lemma MacFunction_total f data (h : heap) :
  key_size_ok (cbc_key_len (mac_cbc f)) = true →
  ∃ h' tag, MacFunction env f data h = (h', inr tag).
Proof.
  intros Hks.
  destruct (pad_aligned data (padding f) (padding2 f) h)
    as (h1 & r & Hpad & Hal).
  destruct (call_cbc_total (mac_cbc f) r h1 Hks Hal) as (h2 & v & Hcall).
  unfold MacFunction, mbind, M_bind. rewrite Hpad, Hcall. by eexists _, _.
Qed.

Lemma MacFunction_never_misaligned f data (h : heap) :
  snd (MacFunction env f data h) ≠ inl MisalignedInput.
Proof.
  destruct (pad_aligned data (padding f) (padding2 f) h)
    as (h1 & r & Hpad & Hal).
  pose proof (call_cbc_never_misaligned (mac_cbc f) r h1 Hal) as Hc.
  unfold MacFunction, mbind, M_bind. rewrite Hpad.
  destruct (call_cbc env (mac_cbc f) r h1) as [h2 [e|v]]; [|done].
  simpl in *. done.
Qed.

Lemma call_cbc_rejects f pt (h : heap) :
  key_size_ok (cbc_key_len f) = false →
  match f with WebCryptoCBC _ => False | _ => True end →
  call_cbc env f pt h = (h, inl InvalidKeyLength).
Proof.
  intros Hks Hf. destruct f as [k|k|key]; [done| |]; simpl in Hks;
    unfold call_cbc, mbind, M_bind, ta_contents; rewrite Hks; reflexivity.
Qed.

(** A key of any other size is refused while [CMAC] runs. *)
Lemma CMAC_rejects key (h : heap) :
  valid h key → key_size_ok (len key) = false →
  CMAC env key h = (h, inl InvalidKeyLength).
Proof.
  intros Hv Hks. pose proof (contents_length h key Hv) as Hk.
  assert (negb (len key =? 24)%nat = true) as H24.
  { unfold key_size_ok in Hks. destruct (len key =? 24)%nat; [|done].
    by rewrite orb_true_r in Hks. }
  unfold CMAC, mbind at 1, M_bind at 1, CBC.
  rewrite H24, andb_true_r. destruct (webCrypto env).
  - unfold mbind at 1, M_bind at 1, ta_contents. rewrite Hks. reflexivity.
  - destruct (nodeCrypto env).
    + unfold mbind at 1, M_bind at 1, ta_contents.
      unfold mbind at 1, M_bind at 1, mret at 1, M_ret at 1.
      cbv beta iota.
      rewrite call_cbc_rejects; [reflexivity| |exact I].
      simpl. by rewrite Hk.
    + unfold mbind at 1, M_bind at 1, mret at 1, M_ret at 1.
      cbv beta iota.
      rewrite call_cbc_rejects; [reflexivity|exact Hks|exact I].
Qed.
End total.

(** ** The recorded run of [mul2] is a run of [mul2] *)

Lemma Leak_for_erase bodyT body :
  (∀ i s, Leak.erase (bodyT i s) = body i (fst s)) →
  (∀ i s, snd (bodyT i s) = inr tt) →
  ∀ n lo s, Leak.erase (Leak.for_ lo n bodyT s) = for_ lo n body (fst s).
Proof.
  intros Hbody Hok. induction n as [|n IH]; intros lo s; [reflexivity|].
  simpl. unfold mbind, Leak.T_bind, M_bind.
  specialize (Hbody lo s). specialize (Hok lo s).
  destruct (bodyT lo s) as [s1 r1]. simpl in Hok. subst r1.
  unfold Leak.erase in Hbody. simpl in Hbody. rewrite <- Hbody.
  apply IH.
Qed.

Lemma Leak_for_ok bodyT :
  (∀ i s, snd (bodyT i s) = inr tt) →
  ∀ n lo s, snd (Leak.for_ lo n bodyT s) = inr tt.
Proof.
  intros Hok. induction n as [|n IH]; intros lo s; [reflexivity|].
  simpl. unfold mbind, Leak.T_bind.
  specialize (Hok lo s). destruct (bodyT lo s) as [s1 r1].
  simpl in Hok. subst r1. apply IH.
Qed.

Lemma Leak_mul2_erase data (h : heap) tr :
  Leak.erase (Leak.mul2 data (h, tr)) = mul2 data h.
Proof.
  cbv beta iota zeta delta
    [Leak.mul2 mul2 mbind Leak.T_bind M_bind Leak.lift Leak.branch
     ta_get ta_set fst snd].
  match goal with
  | |- context [Leak.for_ 0 15 ?bT (h, tr)] =>
      match goal with
      | |- context [for_ 0 15 ?b h] =>
          pose proof (Leak_for_erase bT b) as He;
          pose proof (Leak_for_ok bT) as Ho;
          set (body := b) in *; set (bodyT := bT) in *
      end
  end.
  assert (∀ i s, Leak.erase (bodyT i s) = body i (fst s)) as HA
    by (intros i [h0 tr0]; reflexivity).
  assert (∀ i s, snd (bodyT i s) = inr tt) as HB
    by (intros i [h0 tr0]; reflexivity).
  specialize (He HA HB 15%nat 0%nat (h, tr)).
  specialize (Ho HB 15%nat 0%nat (h, tr)).
  destruct (Leak.for_ 0 15 bodyT (h, tr)) as [[h1 tr1] r1].
  cbn [snd] in Ho. subst r1. unfold Leak.erase in He. cbn [fst snd] in He.
  rewrite <- He. reflexivity.
Qed.

(** ** The empty message *)

Lemma for_id body :
  (∀ i (h : heap), body i h = (h, inr tt)) →
  ∀ n lo (h : heap), for_ lo n body h = (h, inr tt).
Proof.
  intros Hbody. induction n as [|n IH]; intros lo h; [reflexivity|].
  simpl. unfold mbind, M_bind. rewrite Hbody. apply IH.
Qed.

(** Every index of the loop is negative: nothing is read or written. *)
Lemma rightXorMut_empty b o p (h : heap) :
  rightXorMut (mkU8 b o 0) p h = (h, inr (mkU8 b o 0)).
Proof.
  unfold rightXorMut, mbind at 1, M_bind at 1.
  rewrite for_id; [reflexivity|].
  intros i h0. unfold mbind, M_bind.
  destruct (decide (i < 16)%nat) as [Hi|Hi].
  - rewrite ta_get_negative by (cbn [len]; unfold blockLength; lia).
    unfold ta_get at 1.
    rewrite ta_set_outside; [reflexivity|cbn [len]; unfold blockLength; lia].
  - unfold ta_get.
    rewrite ta_set_outside; [reflexivity|cbn [len]; unfold blockLength; lia].
Qed.

(** ** The tag *)

Lemma tag_contents (h1 : heap) buf n :
  (n ≤ length buf)%nat →
  contents (h1 ++ [buf])
    (subarray (mkU8 (length h1) 0 n) (- Z.of_nat blockLength) None)
  = last_block (take n buf).
Proof.
  intros Hn. rewrite subarray_last, contents_last. unfold last_block.
  rewrite length_take, Nat.min_l by done.
  rewrite take_drop_commute. do 2 f_equal. lia.
Qed.

Lemma tag_length n :
  len (subarray (mkU8 0 0 n) (- Z.of_nat blockLength) None)
  = Nat.min n blockLength.
Proof. rewrite subarray_last. cbn [len]. lia. Qed.

Lemma subarray_len b b' o n i e :
  len (subarray (mkU8 b o n) i e) = len (subarray (mkU8 b' 0 n) i e).
Proof. reflexivity. Qed.

Section tag.
Context `{BlockCipher} (env : Env).

(** What the function returned by [CMAC] returns and leaves behind. *)
Lemma MacFunction_tag f k data (h : heap) :
  prepared env f k h → message_ok env f h data →
  let pb := padded_bytes (contents h data) (subkey1 k) (subkey2 k) in
  let h1 := if decide (len data `mod` blockLength = 0)%nat
            then set_view h data pb else h ++ [pb] in
  ∃ buf tag,
    MacFunction env f data h = (h1 ++ [buf], inr tag)
    ∧ contents (h1 ++ [buf]) tag = last_block (cbc_encrypt k pb)
    ∧ len tag = Nat.min (length pb) blockLength
    ∧ prepared env f k (h1 ++ [buf]).
Proof.
  intros Hprep Hmsg.
  destruct (MacFunction_run env f k data h Hprep Hmsg)
    as (buf & Hrun & Hle & Htake & Hprep').
  cbv zeta in *. eexists buf, _. split; [exact Hrun|].
  split; [|split; [|exact Hprep']].
  - rewrite tag_contents by exact Hle. by rewrite Htake.
  - erewrite subarray_len. apply tag_length.
Qed.
End tag.

(** * The claims *)

(** C2. The specification has [pad] send the empty message through the
    padding branch, giving the block 0x80 00 .. 00 XORed with K2. The
    code does not: [data.length % blockLength] is 0 for the empty
    message too, so [pad] runs [rightXorMut] on it with K1, whose sixteen
    writes all fall before the start of the array; the empty message
    comes back as it was, no block is produced, and the store is
    unchanged. *)
Theorem C2_pad_empty_takes_aligned_branch
    (h : heap) (b o : nat) (p p2 : Uint8Array) :
  pad (mkU8 b o 0) p p2 h = rightXorMut (mkU8 b o 0) p h
  ∧ pad (mkU8 b o 0) p p2 h = (h, inr (mkU8 b o 0))
  ∧ contents h (mkU8 b o 0) = [].
Proof.
  assert (pad (mkU8 b o 0) p p2 h = rightXorMut (mkU8 b o 0) p h) as Hpad
    by reflexivity.
  split; [exact Hpad|]. split; [rewrite Hpad; apply rightXorMut_empty|].
  reflexivity.
Qed.

(** C3. A non-empty message of whole blocks is returned in place, its
    length unchanged and its last sixteen bytes XORed with K1. Any
    message that is not of whole blocks is returned in a fresh buffer:
    the message, one byte 0x80, zeros up to the next multiple of sixteen,
    and the last sixteen bytes of that XORed with K2. *)
Theorem C3_pad_branches (h : heap) (data p p2 : Uint8Array) :
  heap_ok h → valid h data → valid h p → valid h p2 →
  len p = blockLength → len p2 = blockLength →
  buffer data ≠ buffer p →
  let m := contents h data in
  let n := length m in
  (n ≠ 0%nat → (n `mod` blockLength = 0)%nat →
     ∃ h', pad data p p2 h = (h', inr data)
       ∧ contents h' data
         = take (n - blockLength) m
           ++ zip_with Z.lxor (drop (n - blockLength) m) (contents h p)
       ∧ length (contents h' data) = n)
  ∧ ((n `mod` blockLength ≠ 0)%nat →
     let e := m ++ 0x80 :: replicate (blockLength - n `mod` blockLength - 1) 0 in
     ∃ h' padded, pad data p p2 h = (h', inr padded)
       ∧ (length e `mod` blockLength = 0)%nat
       ∧ (n < length e ≤ n + blockLength)%nat
       ∧ contents h' padded
         = take (length e - blockLength) e
           ++ zip_with Z.lxor (drop (length e - blockLength) e) (contents h p2)).
Proof.
  intros Hh Hvd Hvp Hvp2 Hlp Hlp2 Hne. cbv zeta.
  pose proof (contents_length h data Hvd) as Hm.
  pose proof (contents_length h p Hvp) as Hk1.
  pose proof (contents_length h p2 Hvp2) as Hk2.
  pose proof (heap_ok_contents h data Hh) as Hbm.
  pose proof (heap_ok_contents h p Hh) as Hb1.
  pose proof (heap_ok_contents h p2 Hh) as Hb2.
  fold (extend (contents h data)). rewrite Hm. split.
  - intros Hn0 Hal.
    assert (blockLength ≤ len data)%nat as Hge.
    { pose proof (aligned_div _ Hal). unfold blockLength in *. lia. }
    rewrite pad_run_aligned by done. eexists. split; [reflexivity|].
    rewrite contents_set_view
      by (done || by rewrite rightXor_bytes_length).
    rewrite rightXor_bytes_tail by (done || lia). rewrite Hm.
    split; [reflexivity|].
    rewrite length_app, length_take, length_zip_with, length_drop. lia.
  - intros Hal.
    pose proof (extend_length (contents h data)) as He. rewrite Hm in He.
    pose proof (Nat.mod_upper_bound (len data) blockLength) as Hlt.
    pose proof (Nat.Div0.mod_le (len data) blockLength) as Hmle.
    rewrite pad_run_unaligned by done. eexists _, _.
    split; [reflexivity|]. rewrite He.
    split; [apply next_multiple|]. split; [unfold blockLength in *; lia|].
    rewrite contents_last, drop_0, take_ge
      by (rewrite rightXor_bytes_length, He; lia).
    rewrite <- He.
    apply rightXor_bytes_tail; [| |by apply extend_ok|done].
    + rewrite He. unfold blockLength in *. lia.
    + lia.
Qed.

(** C3 at the 16-byte and the 3-byte message. *)
Lemma C3_pad_branches_witness :
  ∃ h' h'' padded,
    pad (mkU8 1 0 16) (mkU8 2 0 16) (mkU8 3 0 16)
        [zero16; hex "6bc1bee22e409f96e93d7e117393172a";
         hex "fbeed618357133667c85e08f7236a8de";
         hex "f7ddac306ae266ccf90bc11ee46d513b"] = (h', inr (mkU8 1 0 16))
    ∧ contents h' (mkU8 1 0 16) = hex "902f68fa1b31acf095b89e9e01a5bff4"
    ∧ pad (mkU8 1 0 3) (mkU8 2 0 16) (mkU8 3 0 16)
        [zero16; hex "6bc1be";
         hex "fbeed618357133667c85e08f7236a8de";
         hex "f7ddac306ae266ccf90bc11ee46d513b"] = (h'', inr padded)
    ∧ contents h'' padded = hex "9c1c12b06ae266ccf90bc11ee46d513b".
Proof.
  pose proof (C3_pad_branches
    [zero16; hex "6bc1bee22e409f96e93d7e117393172a";
     hex "fbeed618357133667c85e08f7236a8de";
     hex "f7ddac306ae266ccf90bc11ee46d513b"]
    (mkU8 1 0 16) (mkU8 2 0 16) (mkU8 3 0 16)) as H16.
  pose proof (C3_pad_branches
    [zero16; hex "6bc1be";
     hex "fbeed618357133667c85e08f7236a8de";
     hex "f7ddac306ae266ccf90bc11ee46d513b"]
    (mkU8 1 0 3) (mkU8 2 0 16) (mkU8 3 0 16)) as H3.
  cbv zeta in H16, H3.
  destruct H16 as [H16 _].
  - repeat (apply Forall_cons_2 || apply Forall_nil_2);
      unfold byte_ok; vm_compute; split; congruence.
  - eexists. split; [reflexivity|vm_compute; lia].
  - eexists. split; [reflexivity|vm_compute; lia].
  - eexists. split; [reflexivity|vm_compute; lia].
  - reflexivity.
  - reflexivity.
  - vm_compute. lia.
  - destruct H3 as [_ H3].
    + repeat (apply Forall_cons_2 || apply Forall_nil_2);
        unfold byte_ok; vm_compute; split; congruence.
    + eexists. split; [reflexivity|vm_compute; lia].
    + eexists. split; [reflexivity|vm_compute; lia].
    + eexists. split; [reflexivity|vm_compute; lia].
    + reflexivity.
    + reflexivity.
    + vm_compute. lia.
    + destruct H16 as (h' & Hp & Hc & _); [vm_compute; lia|reflexivity|].
      destruct H3 as (h'' & padded & Hp3 & _ & _ & Hc3); [vm_compute; lia|].
      exists h', h'', padded.
      split; [exact Hp|]. split; [rewrite Hc; reflexivity|].
      split; [exact Hp3|]. rewrite Hc3. reflexivity.
Defined.

(** C6. On a block of sixteen bytes [mul2] works in place and leaves the
    128-bit big-endian value shifted left by one bit, the top bit
    dropped, with 0x87 XORed in exactly when the dropped bit (the 0x80
    bit of the first byte) was 1. The zero block stays zero; when the
    first byte has its 0x80 bit set, the last byte is its shifted value
    XOR 0x87. *)
Theorem C6_mul2_doubles (h : heap) (a : Uint8Array) :
  heap_ok h → valid h a → len a = blockLength →
  let b := contents h a in
  ∃ h', mul2 a h = (h', inr a)
    ∧ let b' := contents h' a in
      length b' = blockLength ∧ bytes_ok b'
      ∧ be_value b'
        = Z.lxor (Z.shiftl (be_value b) 1 mod 2 ^ 128)
                 (if Z.testbit (be_value b) 127 then 0x87 else 0)
      ∧ Z.testbit (be_value b) 127 = Z.testbit (ToInt32 (b !! 0%nat)) 7
      ∧ b' = double b
      ∧ (b = zero16 → b' = zero16)
      ∧ (Z.testbit (ToInt32 (b !! 0%nat)) 7 = true →
         b' !! 15%nat
         = Some (Z.lxor (Z.shiftl (ToInt32 (b !! 15%nat)) 1 mod 256) 0x87)).
Proof.
  intros Hh Hv Hlen. cbv zeta.
  pose proof (contents_length h a Hv) as Hl. rewrite Hlen in Hl.
  pose proof (heap_ok_contents h a Hh) as Hb.
  destruct (mul2_bytes_value _ Hl Hb) as [Hok Hval].
  rewrite mul2_run by done. eexists. split; [reflexivity|].
  rewrite contents_set_view
    by (done || (rewrite mul2_bytes_length; congruence)).
  split; [by rewrite mul2_bytes_length|]. split; [done|].
  split; [done|]. split; [by apply msb_first_byte|].
  split; [by apply mul2_bytes_double|]. split.
  - intros ->. reflexivity.
  - intros Hbit. revert Hbit Hb. generalize (contents h a) Hl. clear.
    intros b Hl. unfold blockLength in Hl. list16 b Hl. intros Hbit Hb.
    bytes_inv. rewrite mul2_bytes_16. cbv zeta.
    cbn [lookup list_lookup ToInt32 default from_option id] in *.
    rewrite mul2_byte_last by done. rewrite Hbit. do 2 f_equal.
    rewrite Z.shiftl_mul_pow2 by lia. unfold byte_ok in *.
    Z.div_mod_to_equations. lia.
Qed.

(** C6 at the block 80 00 .. 00 01, whose double is 00 .. 00 02 XOR 87. *)
Lemma C6_mul2_doubles_witness :
  ∃ h', mul2 (mkU8 0 0 16) [hex "80000000000000000000000000000001"]
        = (h', inr (mkU8 0 0 16))
        ∧ contents h' (mkU8 0 0 16) = hex "00000000000000000000000000000085".
Proof.
  destruct (C6_mul2_doubles [hex "80000000000000000000000000000001"]
              (mkU8 0 0 16)) as (h' & Hrun & _ & _ & _ & _ & Hd & _).
  - repeat (apply Forall_cons_2 || apply Forall_nil_2);
      unfold byte_ok; vm_compute; split; congruence.
  - eexists. split; [reflexivity|vm_compute; lia].
  - reflexivity.
  - exists h'. split; [exact Hrun|]. rewrite Hd. vm_compute. reflexivity.
Defined.

(** C9. The specification asks that the constant XORed in by the
    doubling be computed by a mask, with no branch on the data. [mul2]
    selects it with conditional expressions: [(data[i + 1] & 0x80) ? 1 : 0]
    and [t ? 0x87 : 0]. Recording which way each goes, the zero block and
    the block 80 00 .. 00 give different records, while the recorded run
    computes what [mul2] computes. *)
Theorem C9_mul2_branches_on_data :
  (∀ data (h : heap) tr, Leak.erase (Leak.mul2 data (h, tr)) = mul2 data h)
  ∧ snd (fst (Leak.mul2 (mkU8 0 0 16) ([zero16], [])))
    = replicate 16 false
  ∧ snd (fst (Leak.mul2 (mkU8 0 0 16)
                 ([hex "80000000000000000000000000000000"], [])))
    = replicate 15 false ++ [true]
  ∧ snd (fst (Leak.mul2 (mkU8 0 0 16) ([zero16], [])))
    ≠ snd (fst (Leak.mul2 (mkU8 0 0 16)
                   ([hex "80000000000000000000000000000000"], []))).
Proof.
  split; [apply Leak_mul2_erase|].
  split; [vm_compute; reflexivity|]. split; [vm_compute; reflexivity|].
  vm_compute. discriminate.
Qed.

(** C10. Whatever the message, the view [pad] returns, which is what the
    function returned by [CMAC] passes to the cipher, has a length that
    is a multiple of sixteen: the length of the message when that is one
    already, else the next one. So the unpadded cipher never sees a
    partial block. For the empty message the view has length zero. *)
Theorem C10_cipher_input_aligned `{BlockCipher} (env : Env) (f : mac_fn)
    (data p p2 : Uint8Array) (h : heap) (b o : nat) :
  (∃ h' r, pad data p p2 h = (h', inr r)
     ∧ (len r `mod` blockLength = 0)%nat
     ∧ len r = if decide (len data `mod` blockLength = 0)%nat
               then len data
               else (len data + (blockLength - len data `mod` blockLength))%nat)
  ∧ (∃ h1 r, pad data (padding f) (padding2 f) h = (h1, inr r)
       ∧ (len r `mod` blockLength = 0)%nat
       ∧ MacFunction env f data h
         = (ct ← call_cbc env (mac_cbc f) r;
            mret (subarray ct (- Z.of_nat blockLength) None)) h1)
  ∧ snd (MacFunction env f data h) ≠ inl MisalignedInput
  ∧ pad (mkU8 b o 0) p p2 h = (h, inr (mkU8 b o 0)).
Proof.
  split; [|split; [|split]].
  - destruct (pad_total data p p2 h) as (h' & r & Hpad & Hlen).
    exists h', r. split; [exact Hpad|]. split; [|exact Hlen].
    rewrite Hlen. case_decide; [assumption|apply next_multiple].
  - destruct (pad_aligned data (padding f) (padding2 f) h)
      as (h1 & r & Hpad & Hal).
    exists h1, r. split; [exact Hpad|]. split; [exact Hal|].
    unfold MacFunction. unfold mbind at 1, M_bind at 1. rewrite Hpad.
    reflexivity.
  - apply MacFunction_never_misaligned.
  - apply rightXorMut_empty.
Qed.

(** ** A prepared MAC to run the statements on *)

Lemma rfc_CMAC msg :
  CMAC rfc_env (key3 rfc_key) (store3 rfc_key msg) = (rfc_store msg, inr rfc_mac).
Proof. vm_compute. reflexivity. Qed.

Ltac solve_bytes :=
  repeat (apply Forall_cons_2 || apply Forall_nil_2);
  unfold byte_ok; vm_compute; split; congruence.

Ltac solve_valid := eexists; split; [reflexivity|vm_compute; lia].

Lemma rfc_prepared msg :
  bytes_ok msg → prepared rfc_env rfc_mac rfc_key (rfc_store msg).
Proof.
  intros Hmsg. split; cbn [mac_cbc padding padding2 rfc_mac].
  - unfold rfc_store, store3, heap_ok.
    repeat (apply Forall_cons_2 || apply Forall_nil_2); try solve_bytes.
    exact Hmsg.
  - solve_valid.
  - reflexivity.
  - reflexivity.
  - solve_bytes.
  - solve_valid.
  - reflexivity.
  - solve_valid.
  - vm_compute. reflexivity.
  - solve_valid.
  - vm_compute. reflexivity.
Qed.

Lemma rfc_message_ok msg :
  message_ok rfc_env rfc_mac (rfc_store msg) (msg3 msg).
Proof.
  split.
  - eexists. split; [reflexivity|]. simpl. lia.
  - unfold private. cbn. intros Hin.
    repeat (apply elem_of_cons in Hin as [Hin|Hin]; [discriminate|]).
    by apply elem_of_nil in Hin.
Qed.

(** C1. With the reference AES behind any of the three providers and the
    key 2b7e1516 28aed2a6 abf71588 09cf4f3c, [CMAC] and then the function
    it returns give 070a16b4 6b4d4144 f79bdd9d d04a287c for the 16-byte
    message of RFC 4493. For the empty message they give the empty tag,
    not bb1d6929 e9593728 7fa37d12 9b756746. *)
Theorem C1_known_answers (web node : bool) :
  snd (prepare_and_mac (env3 web node) (key3 rfc_key) (msg3 rfc_msg16)
         (store3 rfc_key rfc_msg16))
  = inr (hex "070a16b46b4d4144f79bdd9dd04a287c")
  ∧ snd (prepare_and_mac (env3 web node) (key3 rfc_key) (msg3 [])
           (store3 rfc_key []))
    = inr []
  ∧ [] ≠ hex "bb1d6929e95937287fa37d129b756746".
Proof.
  split; [|split].
  - destruct web, node; vm_compute; reflexivity.
  - destruct web, node; vm_compute; reflexivity.
  - vm_compute. discriminate.
Qed.

(** The tag RFC 4493 gives for the empty message is the one the padding
    branch of [pad] would lead to. *)
Lemma rfc_empty_tag_by_padding_branch :
  last_block (cbc_encrypt rfc_key (rightXor_bytes (extend []) (subkey2 rfc_key)))
  = hex "bb1d6929e95937287fa37d129b756746".
Proof. vm_compute. reflexivity. Qed.

(** The 40-byte vector of RFC 4493, through the padding branch. *)
Lemma rfc_40_bytes (web node : bool) :
  snd (prepare_and_mac (env3 web node) (key3 rfc_key) (msg3 rfc_msg40)
         (store3 rfc_key rfc_msg40))
  = inr (hex "dfa66747de9ae63030ca32611497c827").
Proof. destruct web, node; vm_compute; reflexivity. Qed.

(** The 64-byte vector of RFC 4493 (four whole blocks), and the 16-byte
    vectors of NIST SP 800-38B for AES-192 and AES-256. *)
Lemma rfc_64_bytes (web node : bool) :
  let m := hex "6bc1bee22e409f96e93d7e117393172aae2d8a571e03ac9c9eb76fac45af8e5130c81c46a35ce411e5fbc1191a0a52eff69f2445df4f9b17ad2b417be66c3710" in
  snd (prepare_and_mac (env3 web node) (key3 rfc_key) (msg3 m)
         (store3 rfc_key m))
  = inr (hex "51f0bebf7e3b9d92fc49741779363cfe").
Proof. cbv zeta. destruct web, node; vm_compute; reflexivity. Qed.

Lemma nist_192_256 (web node : bool) :
  let k192 := hex "8e73b0f7da0e6452c810f32b809079e562f8ead2522c6b7b" in
  let k256 :=
    hex "603deb1015ca71be2b73aef0857d77811f352c073b6108d72d9810a30914dff4" in
  snd (prepare_and_mac (env3 web node) (key3 k192) (msg3 rfc_msg16)
         (store3 k192 rfc_msg16))
  = inr (hex "9e99a7bf31e710900662f65e617c5184")
  ∧ snd (prepare_and_mac (env3 web node) (key3 k256) (msg3 rfc_msg16)
           (store3 k256 rfc_msg16))
    = inr (hex "28a7023f452e8f82bd4bf28d8c37c35c").
Proof. cbv zeta. destruct web, node; split; vm_compute; reflexivity. Qed.

(** The reference AES on the vectors of FIPS 197, appendix C. *)
Lemma fips197_vectors :
  let pt := hex "00112233445566778899aabbccddeeff" in
  AES.Cipher (hex "000102030405060708090a0b0c0d0e0f") pt
  = hex "69c4e0d86a7b0430d8cdb78070b4c55a"
  ∧ AES.Cipher (hex "000102030405060708090a0b0c0d0e0f1011121314151617") pt
    = hex "dda97ca4864cdfe06eaf70a0ec0d7191"
  ∧ AES.Cipher
      (hex "000102030405060708090a0b0c0d0e0f101112131415161718191a1b1c1d1e1f")
      pt
    = hex "8ea2b7ca516745bfeafc49904b496089".
Proof. cbv zeta. repeat split; vm_compute; reflexivity. Qed.

Section claims.
Context `{BlockCipher} (env : Env).

Lemma contents_empty (h : heap) a : len a = 0%nat → contents h a = [].
Proof.
  intros Hl. pose proof (contents_length_le h a) as Hle.
  rewrite Hl in Hle. destruct (contents h a); [done|simpl in Hle; lia].
Qed.

Lemma padded_bytes_ge m k1 k2 :
  m ≠ [] → (blockLength ≤ length (padded_bytes m k1 k2))%nat.
Proof.
  intros Hm. rewrite padded_bytes_length.
  pose proof (Nat.mod_upper_bound (length m) blockLength) as Hlt.
  pose proof (Nat.Div0.mod_le (length m) blockLength) as Hle.
  case_decide as Hal; [|unfold blockLength in *; lia].
  pose proof (aligned_div _ Hal) as Hd.
  destruct m; [done|]. simpl in *. unfold blockLength in *. lia.
Qed.

Lemma cbc_encrypt_length k pt :
  (length pt `mod` blockLength = 0)%nat →
  length (cbc_encrypt k pt) = length pt.
Proof.
  intros Hal. unfold cbc_encrypt.
  by rewrite cbc_chain_length, aligned_div.
Qed.

(** C4. The function returned by [CMAC] returns the last sixteen bytes
    of the CBC ciphertext of the padded message, and that tag is
    sixteen bytes long, for every message but the empty one: there the
    padded message and its ciphertext are empty, and so is the tag. *)
Theorem C4_tag_is_last_block f k data (h : heap) :
  prepared env f k h → message_ok env f h data →
  ∃ h' tag, MacFunction env f data h = (h', inr tag)
    ∧ contents h' tag
      = last_block (cbc_encrypt k
          (padded_bytes (contents h data) (subkey1 k) (subkey2 k)))
    ∧ (len data ≠ 0%nat →
       len tag = blockLength ∧ length (contents h' tag) = blockLength)
    ∧ (len data = 0%nat → len tag = 0%nat ∧ contents h' tag = []).
Proof.
  intros Hprep Hmsg. pose proof Hmsg as [Hvd _].
  pose proof (contents_length h data Hvd) as Hm.
  destruct (MacFunction_tag env f k data h Hprep Hmsg)
    as (buf & tag & Hrun & Htag & Hlen & _).
  cbv zeta in *. eexists _, tag. split; [exact Hrun|].
  split; [exact Htag|]. split.
  - intros Hne.
    assert (contents h data ≠ []) as Hm0
      by (intros Heq; rewrite Heq in Hm; simpl in Hm; lia).
    pose proof (padded_bytes_ge _ (subkey1 k) (subkey2 k) Hm0) as Hge.
    split; [rewrite Hlen; lia|].
    rewrite Htag. unfold last_block.
    rewrite length_drop, cbc_encrypt_length
      by apply padded_bytes_aligned.
    unfold blockLength in *. lia.
  - intros H0. rewrite Htag, Hlen.
    rewrite (contents_empty h data H0). split; reflexivity.
Qed.

(** C5. For an accepted key [CMAC] leaves K1 = double(E_K(0)) and
    K2 = double(K1) in the two buffers its closure keeps; both depend
    on the bytes of the key only. Every later call of the returned
    function, in any state in which those buffers are as [CMAC] left
    them, computes its tag from these two values and leaves them in
    place for the next call. *)
Theorem C5_subkeys_cached key (h : heap) :
  heap_ok h → valid h key →
  valid h (zeroBlock env) → contents h (zeroBlock env) = zero16 →
  key_size_ok (len key) = true →
  let k := contents h key in
  let K1 := double (E k zero16) in
  let K2 := double K1 in
  ∃ h' f, CMAC env key h = (h', inr f)
    ∧ contents h' (padding f) = K1
    ∧ contents h' (padding2 f) = K2
    ∧ prepared env f k h'
    ∧ ∀ h2 data, prepared env f k h2 → message_ok env f h2 data →
        ∃ h3 tag, MacFunction env f data h2 = (h3, inr tag)
          ∧ contents h3 tag
            = last_block (cbc_encrypt k (padded_bytes (contents h2 data) K1 K2))
          ∧ contents h3 (padding f) = K1
          ∧ contents h3 (padding2 f) = K2
          ∧ prepared env f k h3.
Proof.
  intros Hh Hv Hvz Hz Hks.
  destruct (CMAC_run env key h Hh Hv Hvz Hz Hks)
    as (cbc & rest & Hrun & _ & Hprep).
  cbv zeta in *. eexists _, _. split; [exact Hrun|].
  split; [apply (prep_k1 _ _ _ _ Hprep)|].
  split; [apply (prep_k2 _ _ _ _ Hprep)|]. split; [exact Hprep|].
  intros h2 data Hprep2 Hmsg.
  destruct (MacFunction_tag env _ _ data h2 Hprep2 Hmsg)
    as (buf & tag & Hrun2 & Htag & _ & Hprep3).
  cbv zeta in *. eexists _, tag. split; [exact Hrun2|].
  split; [exact Htag|].
  split; [apply (prep_k1 _ _ _ _ Hprep3)|].
  split; [apply (prep_k2 _ _ _ _ Hprep3)|exact Hprep3].
Qed.

(** C7, amended. The function returned by [CMAC] never changes the
    cached subkeys. It leaves the whole store as it was, the message
    included, when the message is empty or not of whole blocks: padding
    then works on a fresh buffer. A non-empty message of whole blocks
    is padded in place: its last sixteen bytes are left XORed with
    K1. *)
Theorem C7_frame f k data (h : heap) :
  prepared env f k h → message_ok env f h data →
  ∃ h' tag, MacFunction env f data h = (h', inr tag)
    ∧ contents h' (padding f) = contents h (padding f)
    ∧ contents h' (padding2 f) = contents h (padding2 f)
    ∧ (len data = 0%nat ∨ (len data `mod` blockLength ≠ 0)%nat →
       (∃ ext, h' = h ++ ext) ∧ contents h' data = contents h data)
    ∧ (len data ≠ 0%nat → (len data `mod` blockLength = 0)%nat →
       contents h' data
       = take (len data - blockLength) (contents h data)
         ++ zip_with Z.lxor (drop (len data - blockLength) (contents h data))
              (contents h (padding f))).
Proof.
  intros Hprep Hmsg. pose proof Hmsg as [Hvd Hnp].
  apply not_private in Hnp as (Hn1 & _).
  pose proof (contents_length h data Hvd) as Hm.
  destruct (MacFunction_tag env f k data h Hprep Hmsg)
    as (buf & tag & Hrun & _ & _ & Hprep').
  cbv zeta in *. eexists _, tag. split; [exact Hrun|].
  split; [by rewrite (prep_k1 _ _ _ _ Hprep'), (prep_k1 _ _ _ _ Hprep)|].
  split; [by rewrite (prep_k2 _ _ _ _ Hprep'), (prep_k2 _ _ _ _ Hprep)|].
  split.
  - intros Hcase.
    assert (∃ ext,
      (if decide (len data `mod` blockLength = 0)%nat
       then set_view h data
              (padded_bytes (contents h data) (subkey1 k) (subkey2 k))
       else h ++ [padded_bytes (contents h data) (subkey1 k) (subkey2 k)])
      ++ [buf] = h ++ ext) as [ext Hext].
    { destruct Hcase as [H0|Hal].
      - rewrite decide_True by (by rewrite H0).
        rewrite (contents_empty h data H0).
        change (padded_bytes [] (subkey1 k) (subkey2 k)) with (@nil Z).
        rewrite <- (contents_empty h data H0), set_view_id by done.
        by eexists.
      - rewrite decide_False by done. rewrite <- app_assoc. by eexists. }
    rewrite Hext. split; [by eexists|]. by apply contents_app.
  - intros Hne Hal. rewrite decide_True by done.
    assert (length (padded_bytes (contents h data) (subkey1 k) (subkey2 k))
            = len data) as Hpl.
    { rewrite padded_bytes_length, Hm. by rewrite decide_True. }
    rewrite contents_app by (by apply valid_set_view).
    rewrite contents_set_view by done.
    unfold padded_bytes. rewrite decide_True by (by rewrite Hm).
    rewrite (prep_k1 _ _ _ _ Hprep), <- Hm.
    apply rightXor_bytes_tail.
    + pose proof (aligned_div _ Hal). unfold blockLength in *. lia.
    + apply subkey1_length.
    + apply heap_ok_contents, (prep_heap _ _ _ _ Hprep).
    + apply double_ok.
Qed.

(** C8. [CMAC] succeeds for keys of 16, 24 and 32 bytes and for no
    others: any other key is refused with [InvalidKeyLength] while
    [CMAC] runs. Once [CMAC] has returned, the function it returned
    gives a tag for every message in every state: no key error can
    come at that time. *)
Theorem C8_key_sizes key (h : heap) :
  heap_ok h → valid h key →
  valid h (zeroBlock env) → contents h (zeroBlock env) = zero16 →
  (key_size_ok (len key) = true
   ↔ len key = 16%nat ∨ len key = 24%nat ∨ len key = 32%nat)
  ∧ (key_size_ok (len key) = true →
     ∃ h' f, CMAC env key h = (h', inr f)
       ∧ ∀ data (h2 : heap), ∃ h3 tag,
           MacFunction env f data h2 = (h3, inr tag))
  ∧ (key_size_ok (len key) = false →
     CMAC env key h = (h, inl InvalidKeyLength)).
Proof.
  intros Hh Hv Hvz Hz. split; [|split].
  - unfold key_size_ok. rewrite !orb_true_iff, !Nat.eqb_eq. tauto.
  - intros Hks.
    destruct (CMAC_run env key h Hh Hv Hvz Hz Hks)
      as (cbc & rest & Hrun & _ & Hprep).
    cbv zeta in *. eexists _, _. split; [exact Hrun|].
    intros data h2. apply MacFunction_total.
    apply (prep_key_size _ _ _ _ Hprep).
  - intros Hks. by apply CMAC_rejects.
Qed.
End claims.

(** ** The statements at the RFC 4493 key *)

Lemma store3_ok key msg : bytes_ok key → bytes_ok msg → heap_ok (store3 key msg).
Proof.
  intros Hk Hm. unfold store3, heap_ok.
  apply Forall_cons_2; [apply zero16_ok|].
  apply Forall_cons_2; [exact Hk|].
  apply Forall_cons_2; [exact Hm|]. apply Forall_nil_2.
Qed.

Lemma rfc_key_ok : bytes_ok rfc_key.
Proof. solve_bytes. Qed.

Lemma rfc_msg16_ok : bytes_ok rfc_msg16.
Proof. solve_bytes. Qed.

(** C4 at the empty message. *)
Lemma C4_tag_is_last_block_witness :
  prepared rfc_env rfc_mac rfc_key (rfc_store [])
  ∧ message_ok rfc_env rfc_mac (rfc_store []) (msg3 [])
  ∧ ∃ h' tag,
      MacFunction rfc_env rfc_mac (msg3 []) (rfc_store []) = (h', inr tag)
      ∧ len tag = 0%nat ∧ contents h' tag = [].
Proof.
  split; [apply rfc_prepared, Forall_nil_2|].
  split; [apply rfc_message_ok|].
  destruct (C4_tag_is_last_block rfc_env rfc_mac rfc_key (msg3 [])
              (rfc_store [])) as (h' & tag & Hrun & _ & _ & H0);
    [apply rfc_prepared, Forall_nil_2|apply rfc_message_ok|].
  exists h', tag. split; [exact Hrun|]. apply H0. reflexivity.
Defined.

(** C5 at the RFC key, with the 16-byte message as the later call. *)
Lemma C5_subkeys_cached_witness :
  heap_ok (store3 rfc_key rfc_msg16)
  ∧ valid (store3 rfc_key rfc_msg16) (key3 rfc_key)
  ∧ valid (store3 rfc_key rfc_msg16) (zeroBlock rfc_env)
  ∧ contents (store3 rfc_key rfc_msg16) (zeroBlock rfc_env) = zero16
  ∧ key_size_ok (len (key3 rfc_key)) = true
  ∧ ∃ h' f,
      CMAC rfc_env (key3 rfc_key) (store3 rfc_key rfc_msg16) = (h', inr f)
      ∧ contents h' (padding f) = rfc_k1
      ∧ contents h' (padding2 f) = rfc_k2.
Proof.
  split; [apply store3_ok; [apply rfc_key_ok|apply rfc_msg16_ok]|].
  split; [solve_valid|]. split; [solve_valid|].
  split; [reflexivity|]. split; [reflexivity|].
  destruct (C5_subkeys_cached rfc_env (key3 rfc_key)
              (store3 rfc_key rfc_msg16))
    as (h' & f & Hrun & H1 & H2 & _);
    [apply store3_ok; [apply rfc_key_ok|apply rfc_msg16_ok]
    |solve_valid|solve_valid|reflexivity|reflexivity|].
  exists h', f. split; [exact Hrun|].
  split; [rewrite H1|rewrite H2]; vm_compute; reflexivity.
Defined.

(** C7 as the specification states it fails on the 16-byte message of
    RFC 4493: the call leaves the caller's buffer holding the message
    XORed with K1. *)
Lemma C7_message_overwritten :
  ¬ (∀ (f : mac_fn) (k : list Z) (data : Uint8Array) (h h' : heap)
       (tag : Uint8Array),
       prepared rfc_env f k h → message_ok rfc_env f h data →
       MacFunction rfc_env f data h = (h', inr tag) →
       contents h' data = contents h data
       ∧ contents h' (padding f) = contents h (padding f)
       ∧ contents h' (padding2 f) = contents h (padding2 f)).
Proof.
  intros Hall.
  destruct (MacFunction_total rfc_env rfc_mac (msg3 rfc_msg16)
              (rfc_store rfc_msg16) eq_refl) as (h' & tag & Hrun).
  destruct (Hall rfc_mac rfc_key (msg3 rfc_msg16) (rfc_store rfc_msg16)
              h' tag (rfc_prepared _ rfc_msg16_ok) (rfc_message_ok _) Hrun)
    as [Hsame _].
  assert (h' = fst (MacFunction rfc_env rfc_mac (msg3 rfc_msg16)
                      (rfc_store rfc_msg16))) as Hh'
    by (by rewrite Hrun).
  rewrite Hh' in Hsame. vm_compute in Hsame. discriminate Hsame.
Qed.

(** C7, amended, at the 16-byte message and at a 3-byte message. *)
Lemma C7_frame_witness :
  prepared rfc_env rfc_mac rfc_key (rfc_store rfc_msg16)
  ∧ message_ok rfc_env rfc_mac (rfc_store rfc_msg16) (msg3 rfc_msg16)
  ∧ (∃ h' tag,
       MacFunction rfc_env rfc_mac (msg3 rfc_msg16) (rfc_store rfc_msg16)
       = (h', inr tag)
       ∧ contents h' (padding rfc_mac) = rfc_k1
       ∧ contents h' (padding2 rfc_mac) = rfc_k2
       ∧ contents h' (msg3 rfc_msg16) = hex "902f68fa1b31acf095b89e9e01a5bff4")
  ∧ (∃ h' tag,
       MacFunction rfc_env rfc_mac (msg3 (hex "6bc1be"))
                   (rfc_store (hex "6bc1be")) = (h', inr tag)
       ∧ contents h' (msg3 (hex "6bc1be")) = hex "6bc1be").
Proof.
  split; [apply rfc_prepared, rfc_msg16_ok|].
  split; [apply rfc_message_ok|]. split.
  - destruct (C7_frame rfc_env rfc_mac rfc_key (msg3 rfc_msg16)
                (rfc_store rfc_msg16))
      as (h' & tag & Hrun & H1 & H2 & _ & Hmsg);
      [apply rfc_prepared, rfc_msg16_ok|apply rfc_message_ok|].
    exists h', tag. split; [exact Hrun|].
    split; [rewrite H1; reflexivity|]. split; [rewrite H2; reflexivity|].
    rewrite Hmsg; [reflexivity|simpl; lia|reflexivity].
  - destruct (C7_frame rfc_env rfc_mac rfc_key (msg3 (hex "6bc1be"))
                (rfc_store (hex "6bc1be")))
      as (h' & tag & Hrun & _ & _ & Hsame & _);
      [apply rfc_prepared; solve_bytes|apply rfc_message_ok|].
    exists h', tag. split; [exact Hrun|].
    destruct Hsame as [_ ->]; [right; vm_compute; lia|reflexivity].
Defined.

(** C8 at the RFC key. *)
Lemma C8_key_sizes_witness :
  heap_ok (store3 rfc_key [])
  ∧ valid (store3 rfc_key []) (key3 rfc_key)
  ∧ valid (store3 rfc_key []) (zeroBlock rfc_env)
  ∧ contents (store3 rfc_key []) (zeroBlock rfc_env) = zero16
  ∧ ∃ h' f, CMAC rfc_env (key3 rfc_key) (store3 rfc_key []) = (h', inr f)
      ∧ ∀ data (h2 : heap), ∃ h3 tag,
          MacFunction rfc_env f data h2 = (h3, inr tag).
Proof.
  split; [apply store3_ok; [apply rfc_key_ok|apply Forall_nil_2]|].
  split; [solve_valid|]. split; [solve_valid|]. split; [reflexivity|].
  destruct (C8_key_sizes rfc_env (key3 rfc_key) (store3 rfc_key []))
    as (_ & Hok & _);
    [apply store3_ok; [apply rfc_key_ok|apply Forall_nil_2]
    |solve_valid|solve_valid|reflexivity|].
  apply Hok. reflexivity.
Defined.

(** Keys of 10 and 20 bytes are refused by every provider; keys of 24 and
    32 bytes are accepted. *)
Lemma prepare_by_key_size (web node : bool) :
  let run n := snd (CMAC (env3 web node) (key3 (replicate n 7))
                      (store3 (replicate n 7) [])) in
  run 10%nat = inl InvalidKeyLength ∧ run 20%nat = inl InvalidKeyLength
  ∧ (∃ f, run 16%nat = inr f) ∧ (∃ f, run 24%nat = inr f)
  ∧ (∃ f, run 32%nat = inr f).
Proof.
  cbv zeta. destruct web, node;
    (split; [vm_compute; reflexivity|]); (split; [vm_compute; reflexivity|]);
    (split; [eexists; vm_compute; reflexivity|]);
    (split; eexists; vm_compute; reflexivity).
Qed.

(** * Further properties of the code *)

(** ** [rightXorMut] on arrays of any length *)

Lemma xor_at_before (d : nat) p c (i : nat) :
  (i < d)%nat → xor_at (- Z.of_nat d) p c i = c.
Proof. intros Hi. unfold xor_at. by rewrite decide_False by lia. Qed.

Lemma xor_at_shift (d : nat) p c (j : nat) :
  xor_at (- Z.of_nat d) p c (d + j) = xor_at 0 (drop d p) c j.
Proof.
  unfold xor_at. rewrite !decide_True by lia.
  replace (Z.to_nat (Z.of_nat (d + j) + - Z.of_nat d)) with j by lia.
  replace (Z.to_nat (Z.of_nat j + 0)) with j by lia.
  by rewrite lookup_drop.
Qed.

Lemma foldl_xor_at_before (d : nat) p c lo m :
  (lo + m ≤ d)%nat → foldl (xor_at (- Z.of_nat d) p) c (seq lo m) = c.
Proof.
  revert lo. induction m as [|m IH]; intros lo Hle; [reflexivity|].
  cbn [seq foldl]. rewrite xor_at_before by lia. apply IH. lia.
Qed.

Lemma foldl_xor_at_shift (d : nat) p m j0 c :
  foldl (xor_at (- Z.of_nat d) p) c (seq (d + j0) m)
  = foldl (xor_at 0 (drop d p)) c (seq j0 m).
Proof.
  revert j0 c. induction m as [|m IH]; intros j0 c; [reflexivity|].
  cbn [seq foldl]. rewrite xor_at_shift.
  replace (S (d + j0)) with (d + S j0)%nat by lia. apply IH.
Qed.

(** A view shorter than a block is XORed with the end of the block. *)
Lemma rightXor_bytes_short c p :
  (length c ≤ blockLength)%nat → length p = blockLength →
  bytes_ok c → bytes_ok p →
  rightXor_bytes c p = zip_with Z.lxor c (drop (blockLength - length c) p).
Proof.
  unfold blockLength. intros Hc Hp Hbc Hbp. unfold rightXor_bytes, blockLength.
  remember (16 - length c)%nat as d eqn:Hd.
  replace (Z.of_nat (length c) - Z.of_nat 16) with (- Z.of_nat d) by lia.
  replace 16%nat with (d + length c)%nat at 1 by lia.
  rewrite seq_app, foldl_app, (foldl_xor_at_before d p c 0 d) by lia.
  replace (0 + d)%nat with (d + 0)%nat by lia.
  rewrite foldl_xor_at_shift.
  pose proof (foldl_xor_at_0 (drop d p) [] c) as Hf. cbn [length app] in Hf.
  rewrite Hf by (rewrite length_drop; lia).
  rewrite drop_0. subst d. apply zip_with_xor_bytes; [done|by apply Forall_drop].
Qed.

(** Whatever the lengths, the two arrays are XORed aligned at their
    ends. *)
Lemma rightXor_bytes_any c p :
  length p = blockLength → bytes_ok c → bytes_ok p →
  rightXor_bytes c p
  = take (length c - blockLength) c
    ++ zip_with Z.lxor (drop (length c - blockLength) c)
                       (drop (blockLength - length c) p).
Proof.
  intros Hp Hbc Hbp. destruct (decide (blockLength ≤ length c)%nat) as [Hge|Hlt].
  - replace (blockLength - length c)%nat with 0%nat by lia.
    rewrite drop_0. by apply rightXor_bytes_tail.
  - replace (length c - blockLength)%nat with 0%nat by lia.
    rewrite take_0, drop_0. apply rightXor_bytes_short; [lia|done..].
Qed.

Lemma zip_with_lxor_twice (t q : list Z) :
  (length t ≤ length q)%nat →
  zip_with Z.lxor (zip_with Z.lxor t q) q = t.
Proof.
  revert q. induction t as [|x t IH]; intros q Hle; [by destruct q|].
  destruct q as [|y q]; [simpl in Hle; lia|]. simpl.
  rewrite Z.lxor_assoc, Z.lxor_nilpotent, Z.lxor_0_r. f_equal.
  apply IH. simpl in Hle. lia.
Qed.

Lemma rightXor_bytes_twice c p :
  length p = blockLength → bytes_ok c → bytes_ok p →
  rightXor_bytes (rightXor_bytes c p) p = c.
Proof.
  intros Hp Hbc Hbp.
  rewrite (rightXor_bytes_any (rightXor_bytes c p) p)
    by (done || by apply rightXor_bytes_ok).
  rewrite rightXor_bytes_length.
  rewrite (rightXor_bytes_any c p) by done.
  set (n := length c). set (k := (n - blockLength)%nat).
  assert (length (take k c) = k) as Hk by (rewrite length_take; lia).
  rewrite take_app_length', drop_app_length' by done.
  rewrite zip_with_lxor_twice, take_drop; [done|].
  rewrite !length_drop. unfold k, n. lia.
Qed.

(** ** What a write through a view leaves alone *)

Lemma set_view_length (h : heap) a c : length (set_view h a c) = length h.
Proof. unfold set_view. apply length_alter. Qed.

Lemma set_view_lookup_ne (h : heap) a c (i : nat) :
  i ≠ buffer a → set_view h a c !! i = h !! i.
Proof. intros Hne. unfold set_view. by rewrite list_lookup_alter_ne. Qed.

Lemma set_view_lookup (h : heap) a c l :
  h !! buffer a = Some l →
  set_view h a c !! buffer a
  = Some (take (byteOffset a) l ++ c ++ drop (byteOffset a + len a) l).
Proof.
  intros Hl. unfold set_view. by rewrite list_lookup_alter_eq, Hl.
Qed.

Lemma set_view_outside (h : heap) a c l :
  h !! buffer a = Some l → (byteOffset a + len a ≤ length l)%nat →
  length c = len a →
  ∃ l', set_view h a c !! buffer a = Some l'
        ∧ length l' = length l
        ∧ take (byteOffset a) l' = take (byteOffset a) l
        ∧ drop (byteOffset a + len a) l' = drop (byteOffset a + len a) l.
Proof.
  intros Hl Hle Hc. eexists. split; [by apply set_view_lookup|].
  assert (length (take (byteOffset a) l) = byteOffset a) as Ht
    by (rewrite length_take; lia).
  split; [by apply view_replace_length|]. split.
  - by rewrite take_app_length'.
  - rewrite app_assoc. rewrite drop_app_length'; [done|].
    rewrite length_app. lia.
Qed.

Ltac solve_heap :=
  repeat (apply Forall_cons_2 || apply Forall_nil_2);
  unfold byte_ok; vm_compute; split; congruence.

(** X1. [rightXorMut] XORs the block into the array aligned at the two
    ends, whatever the length of the array: an array of at least sixteen
    bytes has its last sixteen bytes XORed with the block and the bytes
    before them kept, a shorter array is XORed with the end of the block.
    It returns its argument, writes nowhere else in the store, and not
    outside the view in the view's own buffer. *)
Theorem X1_rightXorMut_right_aligned (h : heap) (data p : Uint8Array) :
  heap_ok h → valid h data → valid h p →
  len p = blockLength → buffer data ≠ buffer p →
  ∃ h', rightXorMut data p h = (h', inr data)
    ∧ contents h' data
      = take (len data - blockLength) (contents h data)
        ++ zip_with Z.lxor
             (drop (len data - blockLength) (contents h data))
             (drop (blockLength - len data) (contents h p))
    ∧ length h' = length h
    ∧ (∀ i : nat, i ≠ buffer data → h' !! i = h !! i)
    ∧ (∀ l, h !! buffer data = Some l →
         ∃ l', h' !! buffer data = Some l'
           ∧ length l' = length l
           ∧ take (byteOffset data) l' = take (byteOffset data) l
           ∧ drop (byteOffset data + len data) l'
             = drop (byteOffset data + len data) l).
Proof.
  intros Hh Hvd Hvp Hlp Hne.
  pose proof (contents_length h data Hvd) as Hm.
  pose proof (contents_length h p Hvp) as Hk. rewrite Hlp in Hk.
  rewrite rightXorMut_run by done. eexists. split; [reflexivity|].
  assert (length (rightXor_bytes (contents h data) (contents h p)) = len data)
    as Hl by (by rewrite rightXor_bytes_length).
  split; [|split; [apply set_view_length|split]].
  - rewrite contents_set_view by done.
    rewrite rightXor_bytes_any by (done || by apply heap_ok_contents).
    by rewrite Hm.
  - intros i Hi. by apply set_view_lookup_ne.
  - intros l Hlk. destruct Hvd as (l0 & Hl0 & Hle).
    rewrite Hlk in Hl0. injection Hl0 as <-.
    by apply set_view_outside.
Qed.

(** X1 on a three-byte view in the middle of a buffer. *)
Lemma X1_rightXorMut_right_aligned_witness :
  let h := [hex "aabb010203ccdd"; hex "000102030405060708090a0b0c0d0e0f"] in
  heap_ok h ∧ valid h (mkU8 0 2 3) ∧ valid h (mkU8 1 0 16)
  ∧ len (mkU8 1 0 16) = blockLength
  ∧ buffer (mkU8 0 2 3) ≠ buffer (mkU8 1 0 16)
  ∧ ∃ h', rightXorMut (mkU8 0 2 3) (mkU8 1 0 16) h = (h', inr (mkU8 0 2 3))
      ∧ h' = [hex "aabb0c0c0cccdd"; hex "000102030405060708090a0b0c0d0e0f"].
Proof.
  cbv zeta.
  split; [solve_heap|]. split; [solve_valid|]. split; [solve_valid|].
  split; [reflexivity|]. split; [discriminate|].
  destruct (X1_rightXorMut_right_aligned
              [hex "aabb010203ccdd"; hex "000102030405060708090a0b0c0d0e0f"]
              (mkU8 0 2 3) (mkU8 1 0 16)) as (h' & Hrun & _);
    [solve_heap|solve_valid|solve_valid|reflexivity|discriminate|].
  exists h'. split; [exact Hrun|].
  apply (f_equal fst) in Hrun. cbn [fst] in Hrun. rewrite <- Hrun.
  vm_compute. reflexivity.
Defined.

(** X2. Applying [rightXorMut] twice with the same block puts the whole
    store back as it was. *)
Theorem X2_rightXorMut_twice (h : heap) (data p : Uint8Array) :
  heap_ok h → valid h data → valid h p →
  len p = blockLength → buffer data ≠ buffer p →
  ∃ h1, rightXorMut data p h = (h1, inr data)
        ∧ rightXorMut data p h1 = (h, inr data).
Proof.
  intros Hh Hvd Hvp Hlp Hne.
  pose proof (contents_length h data Hvd) as Hm.
  pose proof (contents_length h p Hvp) as Hk. rewrite Hlp in Hk.
  assert (length (rightXor_bytes (contents h data) (contents h p)) = len data)
    as Hl by (by rewrite rightXor_bytes_length).
  rewrite rightXorMut_run by done. eexists. split; [reflexivity|].
  rewrite rightXorMut_run by (done || by apply valid_set_view).
  rewrite contents_set_view, contents_set_view_ne by done.
  rewrite set_view_twice by done.
  rewrite rightXor_bytes_twice by (done || by apply heap_ok_contents).
  by rewrite set_view_id.
Qed.

(** X2 on a twenty-byte array. *)
Lemma X2_rightXorMut_twice_witness :
  let h := [hex "00112233445566778899aabbccddeeff01020304";
            hex "fbeed618357133667c85e08f7236a8de"] in
  heap_ok h ∧ valid h (mkU8 0 0 20) ∧ valid h (mkU8 1 0 16)
  ∧ len (mkU8 1 0 16) = blockLength
  ∧ buffer (mkU8 0 0 20) ≠ buffer (mkU8 1 0 16)
  ∧ ∃ h1, rightXorMut (mkU8 0 0 20) (mkU8 1 0 16) h = (h1, inr (mkU8 0 0 20))
          ∧ rightXorMut (mkU8 0 0 20) (mkU8 1 0 16) h1 = (h, inr (mkU8 0 0 20)).
Proof.
  cbv zeta.
  split; [solve_heap|]. split; [solve_valid|]. split; [solve_valid|].
  split; [reflexivity|]. split; [discriminate|].
  apply X2_rightXorMut_twice;
    [solve_heap|solve_valid|solve_valid|reflexivity|discriminate].
Defined.

(** ** Doubling as a map on blocks *)

Lemma be_value_16_range b :
  length b = blockLength → bytes_ok b → 0 ≤ be_value b < 2 ^ 128.
Proof.
  intros Hlen Hb. unfold blockLength in Hlen. list16 b Hlen. bytes_inv.
  unfold be_value, byte_ok in *. simpl. lia.
Qed.

Lemma be_value_inj a b :
  length a = length b → bytes_ok a → bytes_ok b →
  be_value a = be_value b → a = b.
Proof.
  intros Hlen Ha Hb Hv.
  rewrite <- (be_bytes_be_value a Ha), <- (be_bytes_be_value b Hb).
  by rewrite Hlen, Hv.
Qed.

Lemma testbit_127 V : 0 ≤ V < 2 ^ 128 → Z.testbit V 127 = (2 ^ 127 <=? V).
Proof.
  intros HV. rewrite testbit_div by lia.
  assert (V / 2 ^ 127 = 0 ∨ V / 2 ^ 127 = 1) as [Hq|Hq]
    by (Z.div_mod_to_equations; lia); rewrite Hq; simpl.
  - symmetry. apply Z.leb_gt. Z.div_mod_to_equations. lia.
  - symmetry. apply Z.leb_le. Z.div_mod_to_equations. lia.
Qed.

Lemma odd_lxor a b : Z.odd (Z.lxor a b) = xorb (Z.odd a) (Z.odd b).
Proof. by rewrite <- !Z.bit0_odd, Z.lxor_spec. Qed.

Lemma lxor_cancel_r a b c : Z.lxor a c = Z.lxor b c → a = b.
Proof.
  intros Heq. apply (f_equal (λ z, Z.lxor z c)) in Heq.
  by rewrite !Z.lxor_assoc, !Z.lxor_nilpotent, !Z.lxor_0_r in Heq.
Qed.

Lemma shift_reduce_inj Va Vb :
  0 ≤ Va < 2 ^ 128 → 0 ≤ Vb < 2 ^ 128 →
  Z.lxor (Z.shiftl Va 1 mod 2 ^ 128) (if Z.testbit Va 127 then 0x87 else 0)
  = Z.lxor (Z.shiftl Vb 1 mod 2 ^ 128) (if Z.testbit Vb 127 then 0x87 else 0) →
  Va = Vb.
Proof.
  intros Ha Hb. rewrite !Z.shiftl_mul_pow2, !testbit_127 by lia.
  change (2 ^ 1) with 2.
  assert (∀ V, Z.odd ((V * 2) mod 2 ^ 128) = false) as Heven.
  { intros V. replace ((V * 2) mod 2 ^ 128) with (2 * (V mod 2 ^ 127))
      by (Z.div_mod_to_equations; lia).
    by rewrite Z.odd_mul. }
  intros Heq. pose proof (f_equal Z.odd Heq) as Hodd.
  rewrite !odd_lxor, !Heven in Hodd.
  destruct (Z.leb_spec (2 ^ 127) Va), (Z.leb_spec (2 ^ 127) Vb);
    try discriminate Hodd;
    apply lxor_cancel_r in Heq; Z.div_mod_to_equations; lia.
Qed.

Lemma mul2_bytes_inj a b :
  length a = blockLength → length b = blockLength →
  bytes_ok a → bytes_ok b →
  mul2_bytes a = mul2_bytes b → a = b.
Proof.
  intros Hla Hlb Ha Hb Heq.
  destruct (mul2_bytes_value a Hla Ha) as [_ Hva].
  destruct (mul2_bytes_value b Hlb Hb) as [_ Hvb].
  rewrite Heq, Hvb in Hva.
  apply be_value_inj; [congruence|done|done|].
  apply shift_reduce_inj; [by apply be_value_16_range..|done].
Qed.

(** X3. [mul2] never sends two different sixteen-byte blocks to the same
    block. *)
Theorem X3_mul2_injective (h1 h2 : heap) (a1 a2 : Uint8Array) :
  heap_ok h1 → heap_ok h2 → valid h1 a1 → valid h2 a2 →
  len a1 = blockLength → len a2 = blockLength →
  contents (fst (mul2 a1 h1)) a1 = contents (fst (mul2 a2 h2)) a2 →
  contents h1 a1 = contents h2 a2.
Proof.
  intros Hh1 Hh2 Hv1 Hv2 Hl1 Hl2.
  pose proof (contents_length h1 a1 Hv1) as Hc1.
  pose proof (contents_length h2 a2 Hv2) as Hc2.
  rewrite !mul2_run by done. cbn [fst].
  rewrite !contents_set_view
    by (done || (rewrite mul2_bytes_length; congruence)).
  apply mul2_bytes_inj; (congruence || by apply heap_ok_contents).
Qed.

(** X3 at two stores holding the same block at different places. *)
Lemma X3_mul2_injective_witness :
  let h1 := [hex "80000000000000000000000000000001"] in
  let h2 := [hex "ff"; hex "aa80000000000000000000000000000001"] in
  heap_ok h1 ∧ heap_ok h2 ∧ valid h1 (mkU8 0 0 16) ∧ valid h2 (mkU8 1 1 16)
  ∧ contents (fst (mul2 (mkU8 0 0 16) h1)) (mkU8 0 0 16)
    = contents (fst (mul2 (mkU8 1 1 16) h2)) (mkU8 1 1 16)
  ∧ contents h1 (mkU8 0 0 16) = contents h2 (mkU8 1 1 16).
Proof.
  cbv zeta.
  split; [solve_heap|]. split; [solve_heap|].
  split; [solve_valid|]. split; [solve_valid|].
  split; [vm_compute; reflexivity|].
  apply X3_mul2_injective;
    [solve_heap|solve_heap|solve_valid|solve_valid|reflexivity|reflexivity
    |vm_compute; reflexivity].
Defined.

Lemma mul2_bytes_zero16 : mul2_bytes zero16 = zero16.
Proof. reflexivity. Qed.

(** Only the zero block is its own double. *)
Lemma shift_reduce_fixed V :
  0 ≤ V < 2 ^ 128 →
  Z.lxor (Z.shiftl V 1 mod 2 ^ 128) (if Z.testbit V 127 then 0x87 else 0) = V →
  V = 0.
Proof.
  intros HV. rewrite Z.shiftl_mul_pow2, testbit_127 by lia.
  change (2 ^ 1) with 2.
  destruct (Z.leb_spec (2 ^ 127) V) as [Hhi|Hlo].
  - set (W := (V * 2) mod 2 ^ 128).
    assert (W = 2 * V - 2 ^ 128) as HW
      by (unfold W; Z.div_mod_to_equations; lia).
    rewrite (Z.div_mod W 256) by lia.
    assert (0 ≤ W mod 256 < 256) as Hlo by (apply Z.mod_pos_bound; lia).
    rewrite lxor_low by lia.
    assert (W mod 256 - 2 * Z.lxor (W mod 256) 135 ≠ -256
            ∧ 0 ≤ Z.lxor (W mod 256) 135 < 256) as [Hno Hlx].
    { assert ((negb (W mod 256 - 2 * Z.lxor (W mod 256) 135 =? -256))
              && (0 <=? Z.lxor (W mod 256) 135)
              && (Z.lxor (W mod 256) 135 <? 256) = true) as Hb.
      { apply (byte_cases
          (λ lo, (negb (lo - 2 * Z.lxor lo 135 =? -256))
                 && (0 <=? Z.lxor lo 135) && (Z.lxor lo 135 <? 256)));
          [by vm_compute|done]. }
      apply andb_prop in Hb as [Hb H3]. apply andb_prop in Hb as [H1 H2].
      apply negb_true_iff, Z.eqb_neq in H1. lia. }
    clearbody W.
    intros Heq. Z.div_mod_to_equations. lia.
  - rewrite Z.lxor_0_r. intros Heq. Z.div_mod_to_equations. lia.
Qed.

Lemma mul2_bytes_fixed b :
  length b = blockLength → bytes_ok b → mul2_bytes b = b → b = zero16.
Proof.
  intros Hl Hb Heq. destruct (mul2_bytes_value b Hl Hb) as [_ Hv].
  rewrite Heq in Hv. symmetry in Hv.
  apply shift_reduce_fixed in Hv; [|by apply be_value_16_range].
  apply be_value_inj; [done|done|apply zero16_ok|by rewrite Hv].
Qed.

(** ** Doubling and XOR *)

Lemma lxor_swap4 a b c d :
  Z.lxor (Z.lxor a b) (Z.lxor c d) = Z.lxor (Z.lxor a c) (Z.lxor b d).
Proof.
  rewrite !Z.lxor_assoc. f_equal.
  rewrite <- !Z.lxor_assoc. f_equal. apply Z.lxor_comm.
Qed.

Lemma mul2_elem_split (c1 : Z) x y :
  byte_ok x → byte_ok y →
  ToUint8 (Z.lxor (Z.shiftl x 1) (if truthy (Z.land y 0x80) then c1 else 0))
  = Z.lxor (ToUint8 (Z.shiftl x 1)) (if Z.testbit y 7 then ToUint8 c1 else 0).
Proof.
  intros Hx Hy.
  assert (truthy (Z.land y 128) = Z.testbit y 7) as ->.
  { apply (byte_cases (λ y, eqb (truthy (Z.land y 128)) (Z.testbit y 7)))
      in Hy; [by apply eqb_prop|by vm_compute]. }
  destruct (Z.testbit y 7); [|by rewrite !Z.lxor_0_r].
  unfold ToUint8. change 256 with (2 ^ 8).
  rewrite <- !Z.land_ones by lia.
  apply Z.bits_inj'. intros n Hn.
  rewrite !Z.land_spec, !Z.lxor_spec, !Z.land_spec.
  destruct (Z.testbit (Z.ones 8) n); by rewrite ?andb_true_r, ?andb_false_r.
Qed.

Lemma shift_byte_lxor x1 x2 :
  ToUint8 (Z.shiftl (Z.lxor x1 x2) 1)
  = Z.lxor (ToUint8 (Z.shiftl x1 1)) (ToUint8 (Z.shiftl x2 1)).
Proof.
  unfold ToUint8. change 256 with (2 ^ 8). rewrite <- !Z.land_ones by lia.
  apply Z.bits_inj'. intros n Hn.
  rewrite !Z.land_spec, !Z.lxor_spec, !Z.land_spec, Z.shiftl_lxor, Z.lxor_spec.
  destruct (Z.testbit (Z.ones 8) n); by rewrite ?andb_true_r, ?andb_false_r.
Qed.

Lemma mul2_elem_lxor (c1 : Z) x1 x2 y1 y2 :
  byte_ok x1 → byte_ok x2 → byte_ok y1 → byte_ok y2 →
  let g x y := ToUint8 (Z.lxor (Z.shiftl x 1)
                          (if truthy (Z.land y 0x80) then c1 else 0)) in
  g (Z.lxor x1 x2) (Z.lxor y1 y2) = Z.lxor (g x1 y1) (g x2 y2).
Proof.
  intros Hx1 Hx2 Hy1 Hy2. cbv beta zeta.
  rewrite !mul2_elem_split by (done || by apply lxor_byte).
  rewrite shift_byte_lxor, Z.lxor_spec, lxor_swap4. f_equal.
  destruct (Z.testbit y1 7), (Z.testbit y2 7); simpl;
    by rewrite ?Z.lxor_nilpotent, ?Z.lxor_0_r, ?Z.lxor_0_l.
Qed.

Lemma mul2_bytes_lxor a b :
  length a = blockLength → length b = blockLength →
  bytes_ok a → bytes_ok b →
  mul2_bytes (zip_with Z.lxor a b)
  = zip_with Z.lxor (mul2_bytes a) (mul2_bytes b).
Proof.
  intros Hla Hlb Ha Hb. unfold blockLength in *.
  list16 a Hla. list16 b Hlb. bytes_inv.
  cbn [zip_with]. rewrite !mul2_bytes_16. cbv zeta. cbn [zip_with].
  repeat (f_equal; [by apply (mul2_elem_lxor 1)|]).
  f_equal. by apply (mul2_elem_lxor 135).
Qed.

(** X4. [mul2] commutes with XOR: doubling the XOR of two blocks gives
    the XOR of their doubles. *)
Theorem X4_mul2_xor (h1 h2 h3 : heap) (a1 a2 a3 : Uint8Array) :
  heap_ok h1 → heap_ok h2 → valid h1 a1 → valid h2 a2 → valid h3 a3 →
  len a1 = blockLength → len a2 = blockLength → len a3 = blockLength →
  contents h3 a3 = zip_with Z.lxor (contents h1 a1) (contents h2 a2) →
  contents (fst (mul2 a3 h3)) a3
  = zip_with Z.lxor (contents (fst (mul2 a1 h1)) a1)
                    (contents (fst (mul2 a2 h2)) a2).
Proof.
  intros Hh1 Hh2 Hv1 Hv2 Hv3 Hl1 Hl2 Hl3 Hxor.
  pose proof (contents_length h1 a1 Hv1) as Hc1.
  pose proof (contents_length h2 a2 Hv2) as Hc2.
  pose proof (contents_length h3 a3 Hv3) as Hc3.
  rewrite !mul2_run by done. cbn [fst].
  rewrite !contents_set_view
    by (done || (rewrite mul2_bytes_length; congruence)).
  rewrite Hxor.
  apply mul2_bytes_lxor; (congruence || by apply heap_ok_contents).
Qed.

(** X4 at the blocks 80 00 .. 01 and 01 00 .. 80. *)
Lemma X4_mul2_xor_witness :
  let h1 := [hex "80000000000000000000000000000001"] in
  let h2 := [hex "01000000000000000000000000000080"] in
  let h3 := [hex "81000000000000000000000000000081"] in
  let a := mkU8 0 0 16 in
  heap_ok h1 ∧ heap_ok h2 ∧ valid h1 a ∧ valid h2 a ∧ valid h3 a
  ∧ contents h3 a = zip_with Z.lxor (contents h1 a) (contents h2 a)
  ∧ contents (fst (mul2 a h3)) a
    = zip_with Z.lxor (contents (fst (mul2 a h1)) a)
                      (contents (fst (mul2 a h2)) a).
Proof.
  cbv zeta.
  split; [solve_heap|]. split; [solve_heap|].
  split; [solve_valid|]. split; [solve_valid|]. split; [solve_valid|].
  split; [vm_compute; reflexivity|].
  apply X4_mul2_xor;
    [solve_heap|solve_heap|solve_valid|solve_valid|solve_valid
    |reflexivity|reflexivity|reflexivity|vm_compute; reflexivity].
Defined.

(** ** What [CMAC] allocates *)

Section more_cmac.
Context `{BlockCipher} (env : Env).

(** X5. A successful [CMAC] changes nothing that was in the store, the
    key array and [zeroBlock] included: it adds exactly two buffers, the
    first holding K1 in its first sixteen bytes and the second holding K2,
    and the closure's two subkey views are on these two different
    buffers. *)
Theorem X5_CMAC_footprint key (h : heap) :
  heap_ok h → valid h key →
  valid h (zeroBlock env) → contents h (zeroBlock env) = zero16 →
  key_size_ok (len key) = true →
  ∃ b1 b2 f, CMAC env key h = (h ++ [b1; b2], inr f)
    ∧ padding f = mkU8 (length h) 0 blockLength
    ∧ padding2 f = mkU8 (S (length h)) 0 blockLength
    ∧ buffer (padding f) ≠ buffer (padding2 f)
    ∧ take blockLength b1 = double (E (contents h key) zero16)
    ∧ b2 = double (double (E (contents h key) zero16)).
Proof.
  intros Hh Hv Hvz Hz Hks.
  destruct (CMAC_run env key h Hh Hv Hvz Hz Hks)
    as (cbc & rest & Hrun & _ & _).
  cbv zeta in Hrun. eexists _, _, _. split; [exact Hrun|].
  cbn [padding padding2 buffer].
  split; [reflexivity|]. split; [reflexivity|]. split; [lia|].
  split; [|reflexivity].
  apply take_app_length'. symmetry. apply double_length.
Qed.

(** X6. The two subkeys [CMAC] caches are different from each other
    unless the cipher sends the zero block to the zero block under this
    key. *)
Theorem X6_subkeys_differ key (h : heap) :
  heap_ok h → valid h key →
  valid h (zeroBlock env) → contents h (zeroBlock env) = zero16 →
  key_size_ok (len key) = true →
  E (contents h key) zero16 ≠ zero16 →
  ∃ h' f, CMAC env key h = (h', inr f)
    ∧ contents h' (padding f) ≠ contents h' (padding2 f).
Proof.
  intros Hh Hv Hvz Hz Hks HL.
  destruct (CMAC_run env key h Hh Hv Hvz Hz Hks)
    as (cbc & rest & Hrun & _ & Hprep).
  cbv zeta in *. eexists _, _. split; [exact Hrun|].
  rewrite (prep_k1 _ _ _ _ Hprep), (prep_k2 _ _ _ _ Hprep).
  set (k := contents h key) in *. intros Heq. apply HL.
  assert (bytes_ok (E k zero16)) as HbL.
  { apply E_bytes; [by apply heap_ok_contents|apply zero16_ok]. }
  unfold subkey2 in Heq. symmetry in Heq.
  rewrite <- mul2_bytes_double in Heq
    by (apply subkey1_length || apply double_ok).
  apply mul2_bytes_fixed in Heq; [|apply subkey1_length|apply double_ok].
  unfold subkey1 in Heq.
  rewrite <- mul2_bytes_double, <- mul2_bytes_zero16 in Heq
    by (apply E_length || done).
  apply mul2_bytes_inj in Heq; [done|apply E_length|reflexivity|done|].
  apply zero16_ok.
Qed.
End more_cmac.

(** X5 and X6 at the RFC 4493 key. *)
Lemma X5_CMAC_footprint_witness :
  heap_ok (store3 rfc_key []) ∧ valid (store3 rfc_key []) (key3 rfc_key)
  ∧ valid (store3 rfc_key []) (zeroBlock rfc_env)
  ∧ contents (store3 rfc_key []) (zeroBlock rfc_env) = zero16
  ∧ key_size_ok (len (key3 rfc_key)) = true
  ∧ ∃ b1 b2 f,
      CMAC rfc_env (key3 rfc_key) (store3 rfc_key [])
      = (store3 rfc_key [] ++ [b1; b2], inr f)
      ∧ buffer (padding f) ≠ buffer (padding2 f).
Proof.
  split; [apply store3_ok; [apply rfc_key_ok|apply Forall_nil_2]|].
  split; [solve_valid|]. split; [solve_valid|].
  split; [reflexivity|]. split; [reflexivity|].
  destruct (X5_CMAC_footprint rfc_env (key3 rfc_key) (store3 rfc_key []))
    as (b1 & b2 & f & Hrun & _ & _ & Hne & _);
    [apply store3_ok; [apply rfc_key_ok|apply Forall_nil_2]
    |solve_valid|solve_valid|reflexivity|reflexivity|].
  exists b1, b2, f. split; [exact Hrun|exact Hne].
Defined.

Lemma X6_subkeys_differ_witness :
  heap_ok (store3 rfc_key []) ∧ valid (store3 rfc_key []) (key3 rfc_key)
  ∧ valid (store3 rfc_key []) (zeroBlock rfc_env)
  ∧ contents (store3 rfc_key []) (zeroBlock rfc_env) = zero16
  ∧ key_size_ok (len (key3 rfc_key)) = true
  ∧ E (contents (store3 rfc_key []) (key3 rfc_key)) zero16 ≠ zero16
  ∧ ∃ h' f, CMAC rfc_env (key3 rfc_key) (store3 rfc_key []) = (h', inr f)
      ∧ contents h' (padding f) ≠ contents h' (padding2 f).
Proof.
  split; [apply store3_ok; [apply rfc_key_ok|apply Forall_nil_2]|].
  split; [solve_valid|]. split; [solve_valid|].
  split; [reflexivity|]. split; [reflexivity|].
  split; [vm_compute; discriminate|].
  apply (X6_subkeys_differ rfc_env (key3 rfc_key) (store3 rfc_key []));
    [apply store3_ok; [apply rfc_key_ok|apply Forall_nil_2]
    |solve_valid|solve_valid|reflexivity|reflexivity
    |vm_compute; discriminate].
Defined.

(** ** Padding is unambiguous *)

Lemma extend_lookup_after m (j : nat) :
  (length m < j)%nat → extend m !! j ≠ Some 128.
Proof.
  intros Hj. unfold extend. rewrite lookup_app_r by lia.
  destruct (j - length m)%nat as [|i] eqn:Hi; [lia|]. cbn [lookup list_lookup].
  intros Hl. apply lookup_replicate in Hl as [Hl _]. discriminate Hl.
Qed.

Lemma extend_lookup_at m : extend m !! length m = Some 128.
Proof. unfold extend. by rewrite list_lookup_middle. Qed.

Lemma extend_inj m m' : extend m = extend m' → m = m'.
Proof.
  intros Heq.
  destruct (Nat.lt_trichotomy (length m) (length m')) as [Hlt|[Hl|Hgt]].
  - exfalso. apply (extend_lookup_after m (length m') Hlt).
    rewrite Heq. apply extend_lookup_at.
  - apply (f_equal (take (length m))) in Heq. unfold extend in Heq.
    rewrite take_app_length in Heq. rewrite Hl, take_app_length in Heq. done.
  - exfalso. apply (extend_lookup_after m' (length m) Hgt).
    rewrite <- Heq. apply extend_lookup_at.
Qed.

Lemma rightXor_bytes_inj c c' p :
  length p = blockLength → bytes_ok c → bytes_ok c' → bytes_ok p →
  rightXor_bytes c p = rightXor_bytes c' p → c = c'.
Proof.
  intros Hp Hc Hc' Hbp Heq.
  rewrite <- (rightXor_bytes_twice c p), <- (rightXor_bytes_twice c' p) by done.
  by rewrite Heq.
Qed.

(** X7. With the same subkeys, two messages that take the same branch of
    [pad] (both of whole blocks, or both not) and are padded to the same
    bytes are the same message: the 0x80-and-zeros padding can be told
    from the message, and the XOR with the subkey can be undone. *)
Theorem X7_pad_injective_in_branch (h : heap) (d1 d2 p p2 : Uint8Array)
    (h1 h2 : heap) (r1 r2 : Uint8Array) :
  heap_ok h → valid h d1 → valid h d2 → valid h p → valid h p2 →
  len p = blockLength → len p2 = blockLength →
  buffer d1 ≠ buffer p → buffer d2 ≠ buffer p →
  ((len d1 `mod` blockLength = 0)%nat ↔ (len d2 `mod` blockLength = 0)%nat) →
  pad d1 p p2 h = (h1, inr r1) → pad d2 p p2 h = (h2, inr r2) →
  contents h1 r1 = contents h2 r2 →
  contents h d1 = contents h d2.
Proof.
  intros Hh Hv1 Hv2 Hvp Hvp2 Hlp Hlp2 Hn1 Hn2 Hbr Hp1 Hp2 Heq.
  pose proof (contents_length h p Hvp) as Hk1. rewrite Hlp in Hk1.
  pose proof (contents_length h p2 Hvp2) as Hk2. rewrite Hlp2 in Hk2.
  pose proof (contents_length h d1 Hv1) as Hm1.
  pose proof (contents_length h d2 Hv2) as Hm2.
  destruct (decide (len d1 `mod` blockLength = 0)%nat) as [Hal|Hal].
  - pose proof (proj1 Hbr Hal) as Hal2.
    rewrite pad_run_aligned in Hp1, Hp2 by done.
    injection Hp1 as <- <-. injection Hp2 as <- <-.
    rewrite !contents_set_view in Heq
      by (done || by rewrite rightXor_bytes_length).
    apply rightXor_bytes_inj in Heq; (done || by apply heap_ok_contents).
  - assert (len d2 `mod` blockLength ≠ 0)%nat as Hal2 by tauto.
    rewrite pad_run_unaligned in Hp1, Hp2 by done.
    assert (h1 = h ++ [rightXor_bytes (extend (contents h d1)) (contents h p2)]
            ∧ r1 = mkU8 (length h) 0
                     (len d1 + (blockLength - len d1 `mod` blockLength)))
      as [-> ->] by (split; congruence).
    assert (h2 = h ++ [rightXor_bytes (extend (contents h d2)) (contents h p2)]
            ∧ r2 = mkU8 (length h) 0
                     (len d2 + (blockLength - len d2 `mod` blockLength)))
      as [-> ->] by (split; congruence).
    rewrite !contents_last, !drop_0, !take_ge in Heq
      by (rewrite rightXor_bytes_length, extend_length, ?Hm1, ?Hm2; lia).
    apply rightXor_bytes_inj in Heq;
      [by apply extend_inj|done|..|by apply heap_ok_contents];
      by apply extend_ok, heap_ok_contents.
Qed.

(** X7 at two views of the same three bytes. *)
Lemma X7_pad_injective_in_branch_witness :
  let h := [hex "6bc1be"; hex "aa6bc1be";
            hex "fbeed618357133667c85e08f7236a8de";
            hex "f7ddac306ae266ccf90bc11ee46d513b"] in
  let d1 := mkU8 0 0 3 in let d2 := mkU8 1 1 3 in
  let p := mkU8 2 0 16 in let p2 := mkU8 3 0 16 in
  ∃ h1 r1 h2 r2,
    pad d1 p p2 h = (h1, inr r1) ∧ pad d2 p p2 h = (h2, inr r2)
    ∧ contents h1 r1 = contents h2 r2 ∧ contents h d1 = contents h d2.
Proof.
  cbv zeta.
  eexists _, _, _, _. split; [vm_compute; reflexivity|].
  split; [vm_compute; reflexivity|]. split; [vm_compute; reflexivity|].
  eapply (X7_pad_injective_in_branch
            [hex "6bc1be"; hex "aa6bc1be";
             hex "fbeed618357133667c85e08f7236a8de";
             hex "f7ddac306ae266ccf90bc11ee46d513b"]
            (mkU8 0 0 3) (mkU8 1 1 3) (mkU8 2 0 16) (mkU8 3 0 16));
    [solve_heap|solve_valid|solve_valid|solve_valid|solve_valid
    |reflexivity|reflexivity|discriminate|discriminate
    |split; intros Hx; vm_compute in Hx; discriminate Hx
    |vm_compute; reflexivity|vm_compute; reflexivity|vm_compute; reflexivity].
Defined.

(** ** What a call of the returned function touches *)

Section more_mac.
Context `{BlockCipher} (env : Env).

Lemma subarray_buffer a i e : buffer (subarray a i e) = buffer a.
Proof. reflexivity. Qed.

(** X8. A call of the function returned by [CMAC] adds one buffer to the
    store for a message of whole blocks and two for any other, and the
    tag it returns is a view on the last of them. Of what was in the
    store it can only change the last sixteen bytes of the message view:
    every other buffer, and the message's buffer before those bytes and
    after the view, is as before. *)
Theorem X8_MacFunction_footprint f k data (h : heap) :
  prepared env f k h → message_ok env f h data →
  ∃ h' tag, MacFunction env f data h = (h', inr tag)
    ∧ length h'
      = (length h
         + if decide (len data `mod` blockLength = 0)%nat then 1 else 2)%nat
    ∧ buffer tag = (length h' - 1)%nat
    ∧ (∀ i : nat, (i < length h)%nat → i ≠ buffer data → h' !! i = h !! i)
    ∧ (∀ l, h !! buffer data = Some l →
         ∃ l', h' !! buffer data = Some l'
           ∧ length l' = length l
           ∧ take (byteOffset data + (len data - blockLength)) l'
             = take (byteOffset data + (len data - blockLength)) l
           ∧ drop (byteOffset data + len data) l'
             = drop (byteOffset data + len data) l).
Proof.
  intros Hprep Hmsg. pose proof Hmsg as [Hvd _].
  pose proof (contents_length h data Hvd) as Hm.
  pose proof (valid_lt h data Hvd) as Hlt.
  destruct (MacFunction_run env f k data h Hprep Hmsg)
    as (buf & Hrun & _ & _ & _).
  cbv zeta in Hrun. eexists _, _. split; [exact Hrun|].
  set (pb := padded_bytes (contents h data) (subkey1 k) (subkey2 k)) in *.
  assert (bytes_ok (contents h data)) as Hbm
    by apply heap_ok_contents, (prep_heap _ _ _ _ Hprep).
  rewrite subarray_buffer. cbn [buffer].
  destruct (decide (len data `mod` blockLength = 0)%nat) as [Hal|Hal].
  - assert (pb = take (len data - blockLength) (contents h data)
                 ++ zip_with Z.lxor
                      (drop (len data - blockLength) (contents h data))
                      (drop (blockLength - len data) (subkey1 k))) as Hpb.
    { unfold pb, padded_bytes. rewrite decide_True by (by rewrite Hm).
      rewrite rightXor_bytes_any, Hm;
        [done|apply subkey1_length|done|apply double_ok]. }
    assert (length pb = len data) as Hlpb.
    { unfold pb. rewrite padded_bytes_length, Hm. by rewrite decide_True. }
    rewrite length_app, set_view_length. cbn [length].
    split; [lia|]. split; [lia|]. split.
    + intros i Hi Hne.
      rewrite lookup_app_l by (by rewrite set_view_length).
      by apply set_view_lookup_ne.
    + intros l Hl. destruct Hvd as (l0 & Hl0 & Hle).
      rewrite Hl in Hl0. injection Hl0 as <-.
      rewrite lookup_app_l by (by rewrite set_view_length).
      destruct (set_view_outside h data pb l Hl Hle Hlpb)
        as (l' & Hl' & Hlen & Htake & Hdrop).
      exists l'. split; [done|]. split; [done|]. split; [|done].
      rewrite (set_view_lookup h data pb l Hl) in Hl'.
      injection Hl' as <-. rewrite Hpb.
      assert (length (take (byteOffset data) l) = byteOffset data) as Ht
        by (rewrite length_take; lia).
      rewrite take_app_add' by done.
      rewrite <- !app_assoc.
      assert (length (take (len data - blockLength) (contents h data))
              = (len data - blockLength)%nat) as Ht2
        by (rewrite length_take, Hm; lia).
      rewrite take_app_length' by done.
      unfold contents. rewrite Hl. cbn [default from_option id].
      rewrite take_take, Nat.min_l by lia.
      apply take_take_drop.
  - rewrite !length_app. cbn [length].
    split; [lia|]. split; [lia|]. split.
    + intros i Hi Hne. rewrite <- app_assoc. by apply lookup_app_l.
    + intros l Hl. exists l.
      rewrite <- app_assoc, lookup_app_l by done. done.
Qed.
End more_mac.

(** X8 at the 16-byte message of RFC 4493. *)
Lemma X8_MacFunction_footprint_witness :
  prepared rfc_env rfc_mac rfc_key (rfc_store rfc_msg16)
  ∧ message_ok rfc_env rfc_mac (rfc_store rfc_msg16) (msg3 rfc_msg16)
  ∧ ∃ h' tag,
      MacFunction rfc_env rfc_mac (msg3 rfc_msg16) (rfc_store rfc_msg16)
      = (h', inr tag)
      ∧ length h' = 6%nat ∧ buffer tag = 5%nat.
Proof.
  split; [apply rfc_prepared, rfc_msg16_ok|].
  split; [apply rfc_message_ok|].
  destruct (X8_MacFunction_footprint rfc_env rfc_mac rfc_key (msg3 rfc_msg16)
              (rfc_store rfc_msg16)) as (h' & tag & Hrun & Hlen & Hbuf & _);
    [apply rfc_prepared, rfc_msg16_ok|apply rfc_message_ok|].
  exists h', tag. split; [exact Hrun|].
  rewrite Hbuf, Hlen. split; reflexivity.
Defined.

(** ** From the key and the message to the tag *)

Section end_to_end.
Context `{BlockCipher}.



End end_to_end.



(** ** Calling the returned function again on the same array *)

Section again.
Context `{BlockCipher} (env : Env).

Lemma message_ok_app f (h : heap) ext data :
  message_ok env f h data → message_ok env f (h ++ ext) data.
Proof. intros [Hv Hn]. split; [by apply valid_app|done]. Qed.

Lemma message_ok_set_view f (h : heap) data c :
  length c = len data →
  message_ok env f h data → message_ok env f (set_view h data c) data.
Proof. intros Hc [Hv Hn]. split; [by apply valid_set_view|done]. Qed.

(** X11. A message of whole blocks is padded in place, so a second call
    on the same array does not repeat the first: it finds the message
    XORed with K1, XORs K1 in again, and so returns the last block of the
    plain CBC encryption of the original message, with no subkey in it,
    and leaves the array holding the original message again. *)
Theorem X11_second_call_on_aligned f k data (h : heap) :
  prepared env f k h → message_ok env f h data →
  (len data `mod` blockLength = 0)%nat →
  let m := contents h data in
  let masked := take (len data - blockLength) m
                ++ zip_with Z.lxor (drop (len data - blockLength) m)
                     (drop (blockLength - len data) (subkey1 k)) in
  ∃ h1 t1 h2 t2,
    MacFunction env f data h = (h1, inr t1)
    ∧ MacFunction env f data h1 = (h2, inr t2)
    ∧ contents h1 t1 = last_block (cbc_encrypt k masked)
    ∧ contents h1 data = masked
    ∧ contents h2 t2 = last_block (cbc_encrypt k m)
    ∧ contents h2 data = m.
Proof.
  intros Hprep Hmsg Hal. pose proof Hmsg as [Hvd _].
  pose proof (contents_length h data Hvd) as Hm.
  assert (bytes_ok (contents h data)) as Hbm
    by apply heap_ok_contents, (prep_heap _ _ _ _ Hprep).
  destruct (MacFunction_tag env f k data h Hprep Hmsg)
    as (buf1 & t1 & Hmac1 & Htag1 & _ & Hprep1).
  cbv zeta in *. rewrite decide_True in Hmac1, Htag1, Hprep1 by done.
  set (pb := padded_bytes (contents h data) (subkey1 k) (subkey2 k)) in *.
  assert (pb = rightXor_bytes (contents h data) (subkey1 k)) as Hpb0.
  { unfold pb, padded_bytes. by rewrite decide_True by (by rewrite Hm). }
  assert (length pb = len data) as Hlpb
    by (by rewrite Hpb0, rightXor_bytes_length).
  assert (pb = take (len data - blockLength) (contents h data)
               ++ zip_with Z.lxor
                    (drop (len data - blockLength) (contents h data))
                    (drop (blockLength - len data) (subkey1 k))) as Hpb.
  { rewrite Hpb0, rightXor_bytes_any, Hm;
      [done|apply subkey1_length|done|apply double_ok]. }
  assert (message_ok env f (set_view h data pb ++ [buf1]) data) as Hmsg1
    by (by apply message_ok_app, message_ok_set_view).
  assert (contents (set_view h data pb ++ [buf1]) data = pb) as Hc1.
  { rewrite contents_app by (by apply valid_set_view).
    by apply contents_set_view. }
  destruct (MacFunction_tag env f k data _ Hprep1 Hmsg1)
    as (buf2 & t2 & Hmac2 & Htag2 & _ & _).
  cbv zeta in *. rewrite decide_True in Hmac2, Htag2 by done.
  rewrite Hc1 in Hmac2, Htag2.
  assert (padded_bytes pb (subkey1 k) (subkey2 k) = contents h data) as Hback.
  { unfold padded_bytes. rewrite decide_True by (by rewrite Hlpb).
    rewrite Hpb0.
    apply rightXor_bytes_twice; [apply subkey1_length|done|apply double_ok]. }
  rewrite Hback in Hmac2, Htag2.
  eexists _, t1, _, t2. split; [exact Hmac1|]. split; [exact Hmac2|].
  split; [by rewrite Htag1, Hpb|]. split; [by rewrite Hc1, Hpb|].
  split; [exact Htag2|].
  rewrite contents_app.
  - apply contents_set_view; [|done].
    apply valid_app. by apply valid_set_view.
  - apply valid_set_view; [done| |]; apply valid_app; by apply valid_set_view.
Qed.

(** X12. A message that is not of whole blocks is left alone, so a second
    call on the same array returns a tag with the same bytes; the first
    tag, a view on a buffer of its own, still reads the same after the
    second call. *)
Theorem X12_second_call_on_unaligned f k data (h : heap) :
  prepared env f k h → message_ok env f h data →
  (len data `mod` blockLength ≠ 0)%nat →
  ∃ h1 t1 h2 t2,
    MacFunction env f data h = (h1, inr t1)
    ∧ MacFunction env f data h1 = (h2, inr t2)
    ∧ contents h2 t2 = contents h1 t1
    ∧ contents h2 t1 = contents h1 t1
    ∧ buffer t1 ≠ buffer t2
    ∧ contents h2 data = contents h data.
Proof.
  intros Hprep Hmsg Hal. pose proof Hmsg as [Hvd _].
  destruct (MacFunction_run env f k data h Hprep Hmsg)
    as (buf1 & Hmac1 & Hle1 & Htake1 & Hprep1).
  cbv zeta in *. rewrite decide_False in Hmac1, Hprep1 by done.
  set (pb := padded_bytes (contents h data) (subkey1 k) (subkey2 k)) in *.
  set (h1 := (h ++ [pb]) ++ [buf1]) in *.
  assert (message_ok env f h1 data) as Hmsg1
    by (unfold h1; by apply message_ok_app, message_ok_app).
  assert (contents h1 data = contents h data) as Hc1
    by (unfold h1; rewrite <- app_assoc; by apply contents_app).
  destruct (MacFunction_run env f k data h1 Hprep1 Hmsg1)
    as (buf2 & Hmac2 & Hle2 & Htake2 & _).
  cbv zeta in *. rewrite decide_False in Hmac2 by done.
  rewrite Hc1 in Hmac2, Hle2, Htake2. fold pb in Hmac2, Hle2, Htake2.
  eexists _, _, _, _. split; [exact Hmac1|]. split; [exact Hmac2|].
  unfold h1.
  rewrite (tag_contents (h ++ [pb]) buf1 (length pb)) by done.
  rewrite (tag_contents (((h ++ [pb]) ++ [buf1]) ++ [pb]) buf2 (length pb))
    by done.
  split; [by rewrite Htake1, Htake2|]. split; [|split].
  - rewrite <- (app_assoc _ [pb] [buf2]).
    rewrite contents_app; [by apply tag_contents|].
    rewrite subarray_last. exists buf1. cbn [buffer byteOffset len].
    split; [by rewrite lookup_app_r, Nat.sub_diag by lia|lia].
  - rewrite !subarray_buffer. cbn [buffer]. rewrite !length_app. simpl. lia.
  - rewrite <- !app_assoc. by apply contents_app.
Qed.
End again.

(** X11 at the 16-byte message of RFC 4493: the second call returns the
    AES encryption of the message itself. *)
Lemma X11_second_call_on_aligned_witness :
  prepared rfc_env rfc_mac rfc_key (rfc_store rfc_msg16)
  ∧ message_ok rfc_env rfc_mac (rfc_store rfc_msg16) (msg3 rfc_msg16)
  ∧ (len (msg3 rfc_msg16) `mod` blockLength = 0)%nat
  ∧ ∃ h1 t1 h2 t2,
      MacFunction rfc_env rfc_mac (msg3 rfc_msg16) (rfc_store rfc_msg16)
      = (h1, inr t1)
      ∧ MacFunction rfc_env rfc_mac (msg3 rfc_msg16) h1 = (h2, inr t2)
      ∧ contents h1 t1 = hex "070a16b46b4d4144f79bdd9dd04a287c"
      ∧ contents h2 t2 = hex "3ad77bb40d7a3660a89ecaf32466ef97"
      ∧ contents h2 (msg3 rfc_msg16) = rfc_msg16.
Proof.
  split; [apply rfc_prepared, rfc_msg16_ok|].
  split; [apply rfc_message_ok|]. split; [reflexivity|].
  destruct (X11_second_call_on_aligned rfc_env rfc_mac rfc_key
              (msg3 rfc_msg16) (rfc_store rfc_msg16))
    as (h1 & t1 & h2 & t2 & Hm1 & Hm2 & Ht1 & _ & Ht2 & Hd);
    [apply rfc_prepared, rfc_msg16_ok|apply rfc_message_ok|reflexivity|].
  exists h1, t1, h2, t2. split; [exact Hm1|]. split; [exact Hm2|].
  split; [rewrite Ht1; vm_compute; reflexivity|].
  split; [rewrite Ht2; vm_compute; reflexivity|].
  rewrite Hd. reflexivity.
Defined.

(** X12 at a 3-byte message. *)
Lemma X12_second_call_on_unaligned_witness :
  prepared rfc_env rfc_mac rfc_key (rfc_store (hex "6bc1be"))
  ∧ message_ok rfc_env rfc_mac (rfc_store (hex "6bc1be")) (msg3 (hex "6bc1be"))
  ∧ (len (msg3 (hex "6bc1be")) `mod` blockLength ≠ 0)%nat
  ∧ ∃ h1 t1 h2 t2,
      MacFunction rfc_env rfc_mac (msg3 (hex "6bc1be"))
                  (rfc_store (hex "6bc1be")) = (h1, inr t1)
      ∧ MacFunction rfc_env rfc_mac (msg3 (hex "6bc1be")) h1 = (h2, inr t2)
      ∧ contents h2 t2 = contents h1 t1.
Proof.
  split; [apply rfc_prepared; solve_bytes|].
  split; [apply rfc_message_ok|]. split; [vm_compute; discriminate|].
  destruct (X12_second_call_on_unaligned rfc_env rfc_mac rfc_key
              (msg3 (hex "6bc1be")) (rfc_store (hex "6bc1be")))
    as (h1 & t1 & h2 & t2 & Hm1 & Hm2 & Ht & _);
    [apply rfc_prepared; solve_bytes|apply rfc_message_ok
    |vm_compute; discriminate|].
  exists h1, t1, h2, t2. split; [exact Hm1|]. split; [exact Hm2|exact Ht].
Defined.

(** ** Which key a later call encrypts under *)

Section key_capture.
Context `{BlockCipher} (env : Env).

Lemma cbc_key_set_view f data (h : heap) c :
  buffer data ∉ private env f →
  cbc_key (set_view h data c) (mac_cbc f) = cbc_key h (mac_cbc f).
Proof.
  intros Hnp. apply not_private in Hnp as (_ & _ & _ & Hn4).
  destruct (mac_cbc f) as [?|?|key]; [reflexivity|reflexivity|].
  cbn [cbc_key]. apply contents_set_view_ne. exact Hn4.
Qed.

Lemma cbc_key_app f (h : heap) ext :
  match mac_cbc f with AsmCBC key => valid h key | _ => True end →
  cbc_key (h ++ ext) (mac_cbc f) = cbc_key h (mac_cbc f).
Proof.
  intros Hvk.
  destruct (mac_cbc f) as [?|?|key]; [reflexivity|reflexivity|].
  cbn [cbc_key]. apply contents_app. exact Hvk.
Qed.

Lemma MacFunction_any_aligned f data (h : heap) pb :
  valid h (zeroBlock env) → contents h (zeroBlock env) = zero16 →
  key_size_ok (cbc_key_len (mac_cbc f)) = true →
  valid h data → buffer data ∉ private env f →
  (len data `mod` blockLength = 0)%nat →
  pb = rightXor_bytes (contents h data) (contents h (padding f)) →
  ∃ h' tag,
    MacFunction env f data h = (h', inr tag)
    ∧ contents h' tag
      = last_block (cbc_encrypt (cbc_key h (mac_cbc f)) pb).
Proof.
  intros Hvz Hz Hks Hvd Hnp Hal Hpb.
  pose proof (cbc_key_set_view f data h pb Hnp) as Hkey.
  apply not_private in Hnp as (Hn1 & Hn2 & Hn3 & Hn4).
  assert (length pb = len data) as Hpl.
  { rewrite Hpb, rightXor_bytes_length. by apply contents_length. }
  assert (valid (set_view h data pb) data) as Hvd1
    by (apply valid_set_view; assumption).
  destruct (call_cbc_run env (mac_cbc f) data (set_view h data pb)
              Hks Hvd1 Hal) as (buf & Hcall & Hle & Htake & _).
  rewrite (contents_set_view_ne h data (zeroBlock env)) in Htake
    by assumption.
  rewrite (contents_set_view h data pb) in Htake by assumption.
  rewrite Hkey, Hz in Htake.
  exists (set_view h data pb ++ [buf]),
    (subarray (mkU8 (length (set_view h data pb)) 0 (len data))
              (- Z.of_nat blockLength) None).
  split.
  - unfold MacFunction, mbind, M_bind.
    rewrite (pad_run_aligned h data (padding f) (padding2 f) Hvd Hn1 Hal).
    rewrite <- Hpb, Hcall. reflexivity.
  - rewrite tag_contents by assumption. rewrite Htake.
    unfold cbc_encrypt. rewrite Hpl. reflexivity.
Qed.

Lemma MacFunction_any_unaligned f data (h : heap) pb :
  valid h (zeroBlock env) → contents h (zeroBlock env) = zero16 →
  key_size_ok (cbc_key_len (mac_cbc f)) = true →
  match mac_cbc f with AsmCBC key => valid h key | _ => True end →
  valid h data → valid h (padding2 f) →
  (len data `mod` blockLength ≠ 0)%nat →
  pb = rightXor_bytes (extend (contents h data)) (contents h (padding2 f)) →
  ∃ h' tag,
    MacFunction env f data h = (h', inr tag)
    ∧ contents h' tag
      = last_block (cbc_encrypt (cbc_key h (mac_cbc f)) pb).
Proof.
  intros Hvz Hz Hks Hvk Hvd Hv2 Hal Hpb.
  pose proof (cbc_key_app f h [pb] Hvk) as Hkey.
  pose proof (contents_length h data Hvd) as Hm.
  assert (length pb
          = (len data + (blockLength - len data `mod` blockLength))%nat)
    as Hpl.
  { rewrite Hpb, rightXor_bytes_length, extend_length, Hm. reflexivity. }
  assert (length pb `mod` blockLength = 0)%nat as Hpa.
  { rewrite Hpl. apply next_multiple. }
  pose proof (valid_fresh h pb) as Hvp.
  destruct (call_cbc_run env (mac_cbc f)
              (mkU8 (length h) 0 (length pb)) (h ++ [pb]) Hks Hvp Hpa)
    as (buf & Hcall & Hle & Htake & _).
  cbn [len] in Hle, Htake.
  rewrite contents_fresh in Htake.
  rewrite (contents_app h [pb] (zeroBlock env)) in Htake by assumption.
  rewrite Hkey, Hz in Htake.
  exists ((h ++ [pb]) ++ [buf]),
    (subarray (mkU8 (length (h ++ [pb])) 0 (length pb))
              (- Z.of_nat blockLength) None).
  split.
  - unfold MacFunction, mbind, M_bind.
    rewrite (pad_run_unaligned h data (padding f) (padding2 f) Hvd Hv2 Hal).
    rewrite <- Hpb, <- Hpl, Hcall. reflexivity.
  - rewrite tag_contents by assumption. rewrite Htake. reflexivity.
Qed.

(** The returned function on any closure and any two subkey arrays: the
    cipher key is the one the closure reaches when it is called, the
    subkeys are what the two arrays hold. *)
Lemma MacFunction_any f data (h : heap) :
  valid h (zeroBlock env) → contents h (zeroBlock env) = zero16 →
  key_size_ok (cbc_key_len (mac_cbc f)) = true →
  match mac_cbc f with AsmCBC key => valid h key | _ => True end →
  valid h data → valid h (padding2 f) →
  buffer data ∉ private env f →
  ∃ h' tag,
    MacFunction env f data h = (h', inr tag)
    ∧ contents h' tag
      = last_block (cbc_encrypt (cbc_key h (mac_cbc f))
          (padded_bytes (contents h data)
             (contents h (padding f)) (contents h (padding2 f)))).
Proof.
  intros Hvz Hz Hks Hvk Hvd Hv2 Hnp.
  pose proof (contents_length h data Hvd) as Hm.
  unfold padded_bytes. rewrite Hm.
  destruct (decide (len data `mod` blockLength = 0)%nat) as [Hal|Hal].
  - apply MacFunction_any_aligned; (assumption || reflexivity).
  - apply MacFunction_any_unaligned; (assumption || reflexivity).
Qed.

(** What [CMAC] leaves behind, and the state after the caller has then
    overwritten the key array with [k']. *)
Lemma CMAC_then_overwrite key k' data (h : heap) :
  heap_ok h → valid h key →
  valid h (zeroBlock env) → contents h (zeroBlock env) = zero16 →
  key_size_ok (len key) = true →
  length k' = len key → buffer key ≠ buffer (zeroBlock env) →
  valid h data → buffer data ≠ buffer (zeroBlock env) →
  buffer data ≠ buffer key →
  ∃ cbc h1 f,
    let k := contents h key in
    let hk := set_view h1 key k' in
    CMAC env key h = (h1, inr f) ∧ CBC env key h = (h, inr cbc)
    ∧ mac_cbc f = cbc
    ∧ valid hk (zeroBlock env) ∧ contents hk (zeroBlock env) = zero16
    ∧ valid hk key ∧ contents hk key = k'
    ∧ valid hk data ∧ contents hk data = contents h data
    ∧ valid hk (padding2 f)
    ∧ contents hk (padding f) = subkey1 k
    ∧ contents hk (padding2 f) = subkey2 k
    ∧ buffer data ≠ buffer (padding f)
    ∧ buffer data ≠ buffer (padding2 f).
Proof.
  intros Hh Hv Hvz Hz Hks Hl Hkz Hvd Hdz Hdk.
  destruct (CMAC_run env key h Hh Hv Hvz Hz Hks)
    as (cbc & rest & Hrun & HCBC & Hprep).
  cbv zeta in *. set (k := contents h key) in *.
  set (h1 := h ++ [subkey1 k ++ rest; subkey2 k]) in *.
  set (f := mkMac cbc (mkU8 (length h) 0 blockLength)
                      (mkU8 (S (length h)) 0 blockLength)) in *.
  destruct Hprep as [_ Hvz1 Hz1 _ _ _ _ Hv1 Hk1 Hv2 Hk2].
  pose proof (valid_lt h key Hv) as Hltk.
  pose proof (valid_lt h data Hvd) as Hltd.
  assert (valid h1 key) as Hvk1 by (by apply valid_app).
  assert (valid h1 data) as Hvd1 by (by apply valid_app).
  exists cbc, h1, f. split; [exact Hrun|]. split; [exact HCBC|].
  split; [reflexivity|].
  split; [by apply valid_set_view|].
  split; [by rewrite contents_set_view_ne|].
  split; [by apply valid_set_view|].
  split; [by apply contents_set_view|].
  split; [by apply valid_set_view|].
  split.
  { rewrite contents_set_view_ne by done. by apply contents_app. }
  split; [by apply valid_set_view|].
  cbn [f padding padding2 buffer] in *.
  split; [rewrite contents_set_view_ne; [done|cbn [buffer]; lia]|].
  split; [rewrite contents_set_view_ne; [done|cbn [buffer]; lia]|].
  lia.
Qed.

(** X13. The asm.js fallback keeps the caller's key array, not a copy.
    If the caller overwrites that array after [CMAC] has returned, the
    next call encrypts under the new bytes, while the subkeys XORed into
    the message are still those derived from the old key. *)
Theorem X13_fallback_reads_key_at_call key k' data (h : heap) :
  heap_ok h → valid h key →
  valid h (zeroBlock env) → contents h (zeroBlock env) = zero16 →
  key_size_ok (len key) = true →
  webCrypto env && negb (len key =? 24)%nat = false →
  nodeCrypto env = false →
  length k' = len key → buffer key ≠ buffer (zeroBlock env) →
  valid h data → buffer data ≠ buffer (zeroBlock env) →
  buffer data ≠ buffer key →
  ∃ h1 f h2 tag,
    let k := contents h key in
    CMAC env key h = (h1, inr f)
    ∧ MacFunction env f data (set_view h1 key k') = (h2, inr tag)
    ∧ contents h2 tag
      = last_block (cbc_encrypt k'
          (padded_bytes (contents h data) (subkey1 k) (subkey2 k))).
Proof.
  intros Hh Hv Hvz Hz Hks Hweb Hnode Hl Hkz Hvd Hdz Hdk.
  destruct (CMAC_then_overwrite key k' data h)
    as (cbc & h1 & f & Hrun & HCBC & Hcbc & Hvz' & Hz' & Hvk' & Hk' & Hvd'
        & Hd' & Hv2' & Hk1' & Hk2' & Hn1 & Hn2); try done.
  cbv zeta in *.
  assert (cbc = AsmCBC key) as ->.
  { unfold CBC in HCBC. rewrite Hweb, Hnode in HCBC.
    unfold mret, M_ret in HCBC. congruence. }
  destruct (MacFunction_any f data (set_view h1 key k'))
    as (h2 & tag & Hmac & Htag); try done.
  - rewrite Hcbc. simpl. exact Hks.
  - by rewrite Hcbc.
  - unfold private. rewrite Hcbc.
    rewrite !not_elem_of_cons. repeat split; try done. apply not_elem_of_nil.
  - exists h1, f, h2, tag. split; [exact Hrun|]. split; [exact Hmac|].
    rewrite Htag, Hcbc, Hd', Hk1', Hk2'. cbn [cbc_key]. by rewrite Hk'.
Qed.

(** X14. WebCrypto and Node hold a copy of the key made when [CMAC] ran.
    Overwriting the caller's key array afterwards changes nothing: the
    next call returns the tag under the original key. *)
Theorem X14_providers_copy_key key k' data (h : heap) :
  heap_ok h → valid h key →
  valid h (zeroBlock env) → contents h (zeroBlock env) = zero16 →
  key_size_ok (len key) = true →
  webCrypto env && negb (len key =? 24)%nat = true ∨ nodeCrypto env = true →
  length k' = len key → buffer key ≠ buffer (zeroBlock env) →
  valid h data → buffer data ≠ buffer (zeroBlock env) →
  buffer data ≠ buffer key →
  ∃ h1 f h2 tag,
    let k := contents h key in
    CMAC env key h = (h1, inr f)
    ∧ MacFunction env f data (set_view h1 key k') = (h2, inr tag)
    ∧ contents h2 tag
      = last_block (cbc_encrypt k
          (padded_bytes (contents h data) (subkey1 k) (subkey2 k))).
Proof.
  intros Hh Hv Hvz Hz Hks Hprov Hl Hkz Hvd Hdz Hdk.
  destruct (CMAC_then_overwrite key k' data h)
    as (cbc & h1 & f & Hrun & HCBC & Hcbc & Hvz' & Hz' & Hvk' & Hk' & Hvd'
        & Hd' & Hv2' & Hk1' & Hk2' & Hn1 & Hn2); try done.
  cbv zeta in *.
  assert (cbc = WebCryptoCBC (contents h key)
          ∨ cbc = NodeCBC (contents h key)) as Hc.
  { unfold CBC in HCBC.
    destruct (webCrypto env && negb (len key =? 24)%nat).
    - unfold mbind, M_bind, ta_contents in HCBC. rewrite Hks in HCBC.
      unfold mret, M_ret in HCBC. left. congruence.
    - destruct Hprov as [Hp|Hp]; [done|]. rewrite Hp in HCBC.
      unfold mbind, M_bind, ta_contents, mret, M_ret in HCBC.
      right. congruence. }
  pose proof (contents_length h key Hv) as Hlk.
  destruct (MacFunction_any f data (set_view h1 key k'))
    as (h2 & tag & Hmac & Htag); try done.
  - rewrite Hcbc. destruct Hc as [-> | ->]; simpl; by rewrite Hlk.
  - rewrite Hcbc. by destruct Hc as [-> | ->].
  - unfold private. rewrite Hcbc.
    destruct Hc as [-> | ->]; rewrite !not_elem_of_cons;
      repeat split; try done; apply not_elem_of_nil.
  - exists h1, f, h2, tag. split; [exact Hrun|]. split; [exact Hmac|].
    rewrite Htag, Hcbc, Hd', Hk1', Hk2'. by destruct Hc as [-> | ->].
Qed.
End key_capture.

(** X13 on the RFC 4493 key, overwritten with zeros before the call. *)
Lemma X13_fallback_reads_key_at_call_witness :
  ∃ h1 f h2 tag,
    CMAC (env3 false false) (key3 rfc_key) (store3 rfc_key rfc_msg16)
    = (h1, inr f)
    ∧ MacFunction (env3 false false) f (msg3 rfc_msg16)
        (set_view h1 (key3 rfc_key) zero16) = (h2, inr tag)
    ∧ contents h2 tag
      = last_block (cbc_encrypt zero16
          (padded_bytes rfc_msg16 (subkey1 rfc_key) (subkey2 rfc_key))).
Proof.
  apply (X13_fallback_reads_key_at_call (env3 false false) (key3 rfc_key)
           zero16 (msg3 rfc_msg16) (store3 rfc_key rfc_msg16)).
  - apply store3_ok; [apply rfc_key_ok|apply rfc_msg16_ok].
  - solve_valid.
  - solve_valid.
  - reflexivity.
  - reflexivity.
  - reflexivity.
  - reflexivity.
  - reflexivity.
  - simpl; lia.
  - solve_valid.
  - simpl; lia.
  - simpl; lia.
Defined.

(** X14 on the same input, with WebCrypto present. *)
Lemma X14_providers_copy_key_witness :
  ∃ h1 f h2 tag,
    CMAC (env3 true false) (key3 rfc_key) (store3 rfc_key rfc_msg16)
    = (h1, inr f)
    ∧ MacFunction (env3 true false) f (msg3 rfc_msg16)
        (set_view h1 (key3 rfc_key) zero16) = (h2, inr tag)
    ∧ contents h2 tag
      = last_block (cbc_encrypt rfc_key
          (padded_bytes rfc_msg16 (subkey1 rfc_key) (subkey2 rfc_key))).
Proof.
  apply (X14_providers_copy_key (env3 true false) (key3 rfc_key)
           zero16 (msg3 rfc_msg16) (store3 rfc_key rfc_msg16)).
  - apply store3_ok; [apply rfc_key_ok|apply rfc_msg16_ok].
  - solve_valid.
  - solve_valid.
  - reflexivity.
  - reflexivity.
  - left; reflexivity.
  - reflexivity.
  - simpl; lia.
  - solve_valid.
  - simpl; lia.
  - simpl; lia.
Defined.
